(** * archive-graph: a shallow embedding of the Supabase/Neo4j loaders

    This development models the two loaders of the repository:
    - [scripts/import.py]: the REST variant (valid-ID fetch, account-detail
      fetch, paginated follower fetch, per-row MERGE in one transaction);
    - [main.py]: the bulk variant ([load_data_into_neo4j], LOAD CSV with
      MERGE ... ON CREATE SET under USING PERIODIC COMMIT 1000).

    Python values coming out of PostgREST JSON are [jval]; Python dicts are
    [gmap string jval]; Python sets are [gset jval].  Upstream calls
    ([execute()]) are modelled by their response, a database by the value
    of its graph, and the driver calls made on a transaction by a trace. *)

From stdpp Require Import base gmap sets list strings.
From Stdlib Require Import ZArith Lia.

(* ------------------------------------------------------------------ *)
(** ** Python values, exceptions and printed lines *)

(** A JSON scalar as PostgREST returns it for the text columns used here. *)
Inductive jval :=
| JNull
| JStr (s : string).

#[global] Instance jval_eq_dec : EqDecision jval.
Proof. solve_decision. Defined.

#[global] Instance jval_countable : Countable jval.
Proof.
  refine (inj_countable'
            (fun v => match v with JNull => None | JStr s => Some s end)
            (fun o => match o with None => JNull | Some s => JStr s end) _).
  by intros [|s].
Defined.

(** A Python dict decoded from a JSON object. *)
Abbreviation dict := (gmap string jval).

(** Python's [d.get(k)]: [None] (here [JNull]) when the key is missing. *)
Definition dict_get (d : dict) (k : string) : jval :=
  match d !! k with Some v => v | None => JNull end.

(** The exceptions raised by the two scripts. *)
Inductive exn :=
| APIError (msg : string)                 (* postgrest.APIError *)
| RuntimeError (msg : string) (cause : exn) (* raise RuntimeError(...) from e *)
| KeyError (key : string)                 (* d[k] on a missing key *)
| Neo4jError (msg : string)               (* any error of the Neo4j driver *)
| TransactionError (msg : string).        (* neo4j.exceptions.TransactionError *)

(** What the scripts print, as structured events. *)
Inductive line :=
| LValidIds (n : nat)                     (* Number of valid account IDs fetched *)
| LDetails (n : nat)                      (* Number of account details fetched *)
| LPage (page n : nat)                    (* Fetched page {page} ({n} relationships) *)
| LTotal (n : nat)                        (* Total number of follower relationships *)
| LFirstHeader                            (* First 5 relationships found: *)
| LFirst (i : nat) (a b : jval)           (* {i}. {account_id} -> {follower_account_id} *)
| LInsertIds (n : nat)                    (* Number of valid IDs inside insert_... *)
| LSkip (a b : jval)                      (* Skipping invalid relationship: a -> b *)
| LCommitted                              (* Transaction committed successfully. *)
| LRolledBack (e : exn)                   (* Transaction rolled back due to error: e *)
| LDone.                                  (* Done! Check your Neo4j database ... *)

(** Outcome of a Python call: a return value or a raised exception. *)
Inductive outcome (A : Type) :=
| Ret (a : A)
| Raise (e : exn).
Arguments Ret {A} a.
Arguments Raise {A} e.

(** A call returns its printed lines together with its outcome. *)
Definition M (A : Type) := (list line * outcome A)%type.

Definition mret {A} (a : A) : M A := ([], Ret a).
Definition mraise {A} (e : exn) : M A := ([], Raise e).
Definition mprint (l : line) : M unit := ([l], Ret tt).
Definition mbind {A B} (m : M A) (k : A -> M B) : M B :=
  match m with
  | (out, Ret a) => let '(out', r) := k a in (out ++ out', r)
  | (out, Raise e) => (out, Raise e)
  end.

Notation "'let!' x := m 'in' k" := (mbind m (fun x => k))
  (at level 200, x name, m at level 100, k at level 200).
Notation "m ;;; k" := (mbind m (fun _ => k))
  (at level 100, k at level 200).

(** The response of a PostgREST [execute()]: data, or an error that
    [execute()] raises as [APIError]. *)
Inductive response (A : Type) :=
| Data (data : A)
| ApiFail (msg : string).
Arguments Data {A} data.
Arguments ApiFail {A} msg.

Definition execute {A} (r : response A) : M A :=
  match r with
  | Data d => mret d
  | ApiFail m => mraise (APIError m)
  end.

(** [try: body except APIError as e: raise RuntimeError(msg) from e];
    other exceptions pass through. *)
Definition wrap_api_error {A} (msg : string) (m : M A) : M A :=
  match m with
  | (out, Raise (APIError s)) => (out, Raise (RuntimeError msg (APIError s)))
  | _ => m
  end.

(* ------------------------------------------------------------------ *)
(** ** [fetch_valid_account_ids] *)

(** [{row["account_id"] for row in response.data if "account_id" in row}] *)
Fixpoint collect_ids (rows : list dict) : gset jval :=
  match rows with
  | [] => ∅
  | row :: rest =>
      match row !! "account_id" with
      | Some v => {[v]} ∪ collect_ids rest
      | None => collect_ids rest
      end
  end.

(** No try/except here: an [APIError] of [execute()] propagates as is. *)
Definition fetch_valid_account_ids (resp : response (list dict)) : M (gset jval) :=
  let! data := execute resp in
  let valid_ids := collect_ids data in
  mprint (LValidIds (size valid_ids)) ;;;
  mret valid_ids.

(* ------------------------------------------------------------------ *)
(** ** [fetch_account_details] *)

(** A row of [account] joined with [all_profile(bio, location,
    avatar_media_url)]: its flat fields, and the embedded [all_profile]
    object ([None] when it is null or absent). *)
Record detail_row := mkDetailRow {
  dr_fields : dict;
  dr_all_profile : option dict;
}.

(** [row[k]]: [KeyError] on a missing key. *)
Definition getitem (d : dict) (k : string) : M jval :=
  match d !! k with
  | Some v => mret v
  | None => mraise (KeyError k)
  end.

(** The inner dict [{"username": ..., ..., "avatar_media_url": ...}]. *)
Definition details_entry (username display : jval) (profile : dict) : dict :=
  <["username" := username]>
  (<["account_display_name" := display]>
  (<["bio" := dict_get profile "bio"]>
  (<["location" := dict_get profile "location"]>
  (<["avatar_media_url" := dict_get profile "avatar_media_url"]> ∅)))).

(** The [for row in response.data] loop of [fetch_account_details]. *)
Fixpoint build_details (rows : list detail_row) (acc : gmap jval dict)
    : M (gmap jval dict) :=
  match rows with
  | [] => mret acc
  | row :: rest =>
      let! account_id := getitem (dr_fields row) "account_id" in
      (* row.get("all_profile") or {} *)
      let profile_data := match dr_all_profile row with
                          | Some p => p
                          | None => ∅
                          end in
      let! username := getitem (dr_fields row) "username" in
      let! display := getitem (dr_fields row) "account_display_name" in
      build_details rest (<[account_id := details_entry username display profile_data]> acc)
  end.

Definition fetch_account_details (resp : response (list detail_row))
    : M (gmap jval dict) :=
  let! data := wrap_api_error "Account details query failed" (execute resp) in
  let! account_details := build_details data ∅ in
  mprint (LDetails (size account_details)) ;;;
  mret account_details.

(* ------------------------------------------------------------------ *)
(** ** [fetch_follower_relationships] *)

(** A row of the [followers] table (the two columns that are selected). *)
Record follower_row := mkFollowerRow {
  f_account_id : jval;
  f_follower_account_id : jval;
}.

(** Python's [str(id)]. *)
Definition py_str (v : jval) : string :=
  match v with JNull => "None" | JStr s => s end.

(** PostgREST's [.in_(column, values)]: SQL [column IN (values)];
    a NULL column never matches. *)
Definition in_filter (values : list string) (v : jval) : bool :=
  match v with
  | JNull => false
  | JStr s => bool_decide (s ∈ values)
  end.

(** [.select("account_id, follower_account_id")] of one row. *)
Definition project (r : follower_row) : dict :=
  <["account_id" := f_account_id r]>
  (<["follower_account_id" := f_follower_account_id r]> ∅).

(** The unpaginated result of the filtered query, in table order. *)
Definition full_query (table : list follower_row) (values : list string)
    : list dict :=
  map project
    (filter (fun r => in_filter values (f_account_id r) = true /\
                      in_filter values (f_follower_account_id r) = true) table).

(** [.range(lo, hi)]: the rows at offsets [lo..hi], both included. *)
Definition range_rows {A} (lo hi : nat) (rows : list A) : list A :=
  firstn (S hi - lo) (skipn lo rows).

Definition page_size : nat := 1000.

Section Pagination.
(** The state of the [followers] table during the fetch, the values of
    the [in_] filters, the order in which the database reads the rows for
    each request, and the API failures: [api_fail p] is [Some msg] when
    the request for page [p] errors.  The query has no [.order()], so
    [LIMIT]/[OFFSET] apply to whatever order the database picks for that
    request: [order p table] is the table in the order of request [p]. *)
Variable table : list follower_row.
Variable values : list string.
Variable order : nat -> list follower_row -> list follower_row.
Variable api_fail : nat -> option string.

(** One request of the loop. *)
Definition request_page (page : nat) : response (list dict) :=
  match api_fail page with
  | Some msg => ApiFail msg
  | None =>
      Data (range_rows (page * page_size) ((page + 1) * page_size - 1)
              (full_query (order page table) values))
  end.

(** The [while True] loop, run for at most [fuel] requests; [None] when
    the loop has not stopped within [fuel] requests. *)
Fixpoint page_loop (fuel page : nat) (all_relationships : list dict)
    : option (M (list dict)) :=
  match fuel with
  | 0 => None
  | S fuel' =>
      match execute (request_page page) with
      | (_, Raise e) => Some ([], Raise e)
      | (_, Ret current_batch) =>
          let acc := all_relationships ++ current_batch in
          if bool_decide (length current_batch < page_size) then Some (mret acc)
          else
            match page_loop fuel' (S page) acc with
            | None => None
            | Some m => Some (mprint (LPage (S page) (length current_batch)) ;;; m)
            end
      end
  end.
End Pagination.

(** The debug print of the first five rows. *)
Fixpoint print_first (i : nat) (rows : list dict) : M unit :=
  match rows with
  | [] => mret tt
  | row :: rest =>
      let! a := getitem row "account_id" in
      let! b := getitem row "follower_account_id" in
      mprint (LFirst (S i) a b) ;;;
      print_first (S i) rest
  end.

(** [fetch_follower_relationships].  The loop is run with
    [S (length table)] requests of fuel, which is always enough when each
    request reads the rows of the table in some order (lemma
    [page_loop_stops]); the [None] branch is then unreachable. *)
Definition fetch_follower_relationships (valid_ids : gset jval)
    (table : list follower_row) (order : nat -> list follower_row -> list follower_row)
    (api_fail : nat -> option string) : M (list dict) :=
  let valid_id_list := map py_str (elements valid_ids) in
  wrap_api_error "Follower query failed"
    (match page_loop table valid_id_list order api_fail (S (length table)) 0 [] with
     | None => mret []
     | Some m =>
         let! all_relationships := m in
         mprint (LTotal (length all_relationships)) ;;;
         mprint LFirstHeader ;;;
         print_first 0 (firstn 5 all_relationships) ;;;
         mret all_relationships
     end).

(** The rows that request [k] of the loop returns when it succeeds. *)
Definition page_of (table : list follower_row) (values : list string)
    (order : nat -> list follower_row -> list follower_row) (k : nat) : list dict :=
  take page_size (drop (k * page_size) (full_query (order k table) values)).

(* A sample table for the follower fetch: the 1001 first relationships
   between 33 distinct accounts, in the order [(0,1), (0,2), ...], and
   an order of the rows that reads them backwards for the first request
   and as stored for the others. *)
Definition sample_id (i : nat) : jval :=
  JStr (String (Ascii.ascii_of_nat (48 + i)) EmptyString).

Definition sample_ids : list nat := seq 0 33.

Definition sample_valid_ids : gset jval := list_to_set (map sample_id sample_ids).

Definition sample_table : list follower_row :=
  take 1001 (flat_map (fun i => flat_map (fun j =>
    if bool_decide (i = j) then [] else [mkFollowerRow (sample_id i) (sample_id j)])
    sample_ids) sample_ids).

Definition sample_order (k : nat) (t : list follower_row) : list follower_row :=
  if bool_decide (k = 0) then rev t else t.

(* ------------------------------------------------------------------ *)
(** ** The Neo4j graph of the REST variant and [insert_relationships_into_neo4j] *)

(** [:User] nodes by their [id] (the uniqueness constraint makes [id] a
    key), each with its property map; Neo4j stores no null property.
    [FOLLOWED_BY] edges by their (followed, follower) endpoints. *)
Record ugraph := mkUGraph {
  users : gmap jval dict;
  followed_by : gset (jval * jval);
}.

(** [SET n.k = v]: setting a property to null removes it. *)
Definition set_prop (k : string) (v : jval) (props : dict) : dict :=
  match v with
  | JNull => delete k props
  | JStr _ => <[k := v]> props
  end.

(** The five [SET] items of one endpoint, in the order of the query. *)
Definition set_details (p : list (string * jval)) (props : dict) : dict :=
  foldl (fun acc kv => set_prop kv.1 kv.2 acc) props p.

(** [MERGE (u:User {id: $id}) SET u.username = ..., ...]. *)
Definition merge_user (id : jval) (p : list (string * jval)) (g : ugraph) : ugraph :=
  let props := default ∅ (users g !! id) in
  mkUGraph (<[id := set_details p props]> (users g)) (followed_by g).

(** The parameters of one endpoint:
    [d = account_details.get(id, {})], then [d.get("username")], ... *)
Definition endpoint_params (account_details : gmap jval dict) (id : jval)
    : list (string * jval) :=
  let d := default ∅ (account_details !! id) in
  [("username", dict_get d "username");
   ("account_display_name", dict_get d "account_display_name");
   ("bio", dict_get d "bio");
   ("location", dict_get d "location");
   ("avatar_media_url", dict_get d "avatar_media_url")].

(** The per-row Cypher statement.  MERGE on a null [id] is a Neo4j error. *)
Definition upsert_row (followed_id follower_id : jval)
    (pa pb : list (string * jval)) (g : ugraph) : option ugraph :=
  match followed_id, follower_id with
  | JStr _, JStr _ =>
      let g1 := merge_user followed_id pa g in
      let g2 := merge_user follower_id pb g1 in
      Some (mkUGraph (users g2) ({[(followed_id, follower_id)]} ∪ followed_by g2))
  | _, _ => None
  end.

(** Calls made on the transaction object. *)
Inductive call :=
| CRun (followed_id follower_id : jval)
| CCommit
| CRollback
| CClose.

#[global] Instance call_eq_dec : EqDecision call.
Proof. solve_decision. Defined.

(** The Neo4j side: [schema_fail] when the constraint statement errors,
    [run_fail i] when the [i]-th [tx.run] (from 0) errors, [commit_fail]
    when [tx.commit()] errors.  A failed [tx.commit()] leaves the
    transaction closed, so the driver's [tx.rollback()] then raises
    [TransactionError("Transaction closed")]; otherwise [tx.rollback()]
    does not raise, and [tx.close()] never does. *)
Record neo_env := mkNeoEnv {
  schema_fail : option string;
  run_fail : nat -> option string;
  commit_fail : option string;
}.

(** The result of the [try] body: printed lines, transaction calls, and
    the working graph of the transaction or the exception. *)
Record tx_result := mkTxResult {
  tx_out : list line;
  tx_calls : list call;
  tx_outcome : outcome ugraph;
}.

Section Insert.
Variable valid_ids : gset jval.
Variable account_details : gmap jval dict.
Variable env : neo_env.

(** The [for row in relationships] loop inside the transaction; [i]
    counts the [tx.run] calls made so far and [w] is the graph as the
    transaction sees it. *)
Fixpoint tx_rows (rows : list dict) (i : nat) (w : ugraph) : tx_result :=
  match rows with
  | [] => mkTxResult [] [] (Ret w)
  | row :: rest =>
      match row !! "account_id" with
      | None => mkTxResult [] [] (Raise (KeyError "account_id"))
      | Some followed_id =>
      match row !! "follower_account_id" with
      | None => mkTxResult [] [] (Raise (KeyError "follower_account_id"))
      | Some follower_id =>
      if bool_decide (followed_id ∉ valid_ids \/ follower_id ∉ valid_ids) then
        let r := tx_rows rest i w in
        mkTxResult (LSkip followed_id follower_id :: tx_out r) (tx_calls r) (tx_outcome r)
      else
        let pa := endpoint_params account_details followed_id in
        let pb := endpoint_params account_details follower_id in
        match run_fail env i with
        | Some msg => mkTxResult [] [CRun followed_id follower_id] (Raise (Neo4jError msg))
        | None =>
        match upsert_row followed_id follower_id pa pb w with
        | None => mkTxResult [] [CRun followed_id follower_id]
                    (Raise (Neo4jError "Cannot merge node using null property value"))
        | Some w' =>
            let r := tx_rows rest (S i) w' in
            mkTxResult (tx_out r) (CRun followed_id follower_id :: tx_calls r) (tx_outcome r)
        end
        end
      end
      end
  end.

(** The result of [insert_relationships_into_neo4j]: printed lines,
    transaction calls, outcome, and the committed graph afterwards. *)
Record ins_result := mkInsResult {
  ins_out : list line;
  ins_calls : list call;
  ins_outcome : outcome unit;
  ins_graph : ugraph;
}.

Definition insert_relationships_into_neo4j (relationships : list dict) (g : ugraph)
    : ins_result :=
  let out0 := [LInsertIds (size valid_ids)] in
  match schema_fail env with
  | Some msg => mkInsResult out0 [] (Raise (Neo4jError msg)) g
  | None =>
      let r := tx_rows relationships 0 g in
      match tx_outcome r with
      | Ret w =>
          match commit_fail env with
          | None =>
              mkInsResult (out0 ++ tx_out r ++ [LCommitted])
                (tx_calls r ++ [CCommit; CClose]) (Ret tt) w
          | Some msg =>
              (* the except block's tx.rollback() raises; finally: tx.close() *)
              mkInsResult (out0 ++ tx_out r)
                (tx_calls r ++ [CCommit; CRollback; CClose])
                (Raise (TransactionError "Transaction closed")) g
          end
      | Raise e =>
          mkInsResult (out0 ++ tx_out r ++ [LRolledBack e])
            (tx_calls r ++ [CRollback; CClose]) (Ret tt) g
      end
  end.
End Insert.

(** The batch was committed: [tx.commit()] was called and no rollback. *)
Definition committed (r : ins_result) : Prop :=
  CCommit ∈ ins_calls r /\ CRollback ∉ ins_calls r.

(** The exception of an outcome, if any. *)
Definition raised {A} (o : outcome A) : option exn :=
  match o with Ret _ => None | Raise e => Some e end.

(** [main] of [scripts/import.py]: its printed lines and outcome, and the
    graph afterwards. *)
Definition import_main (resp_ids : response (list dict))
    (resp_details : response (list detail_row)) (table : list follower_row)
    (order : nat -> list follower_row -> list follower_row)
    (api_fail : nat -> option string) (env : neo_env) (g : ugraph)
    : M unit * ugraph :=
  match fetch_valid_account_ids resp_ids with
  | (o1, Raise e) => ((o1, Raise e), g)
  | (o1, Ret valid_ids) =>
  match fetch_account_details resp_details with
  | (o2, Raise e) => ((o1 ++ o2, Raise e), g)
  | (o2, Ret account_details) =>
  match fetch_follower_relationships valid_ids table order api_fail with
  | (o3, Raise e) => ((o1 ++ o2 ++ o3, Raise e), g)
  | (o3, Ret relationships) =>
      let r := insert_relationships_into_neo4j valid_ids account_details env relationships g in
      match ins_outcome r with
      | Raise e => ((o1 ++ o2 ++ o3 ++ ins_out r, Raise e), ins_graph r)
      | Ret _ => ((o1 ++ o2 ++ o3 ++ ins_out r ++ [LDone], Ret tt), ins_graph r)
      end
  end
  end
  end.

(* ------------------------------------------------------------------ *)
(** ** The bulk variant: [load_data_into_neo4j] of [main.py] *)

(** A Neo4j property value written by the bulk load. *)
Inductive nval :=
| NStr (s : string)
| NInt (z : Z).

(** A row of LOAD CSV WITH HEADERS: header -> field; a missing or empty
    field is null, i.e. absent from the map. *)
Abbreviation csvrow := (gmap string string).

(** The bulk graph: [:Account], [:Tweet] and [:Media] nodes by their keys
    (the three uniqueness constraints make them keys) with their property
    maps, and the four relationship types by their endpoints. *)
Record bgraph := mkBGraph {
  accounts : gmap string (gmap string nval);
  tweets : gmap string (gmap string nval);
  media : gmap Z (gmap string nval);
  tweeted : gset (string * string);     (* (account_id, tweet_id) *)
  follows : gset (string * string);     (* (follower, followee) *)
  likes : gset (string * string);       (* (account_id, tweet_id) *)
  has_media : gset (string * Z);        (* (tweet_id, media_id) *)
}.

(** The CSV files, one per entry of [TABLES_TO_EXPORT]. *)
Record csv_files := mkCsvFiles {
  account_csv : list csvrow;
  enriched_tweets_csv : list csvrow;
  followers_csv : list csvrow;
  following_csv : list csvrow;
  likes_csv : list csvrow;
  tweet_media_csv : list csvrow;
}.

(** The properties of an [ON CREATE SET] list; a null value sets nothing. *)
Fixpoint props_of (l : list (string * option nval)) : gmap string nval :=
  match l with
  | [] => ∅
  | (k, Some v) :: rest => <[k := v]> (props_of rest)
  | (k, None) :: rest => props_of rest
  end.

(** [MERGE (n {key: k}) ON CREATE SET ...] on one node map. *)
Definition merge_on_create {K} `{Countable K} (k : K) (p : gmap string nval)
    (m : gmap K (gmap string nval)) : gmap K (gmap string nval) :=
  match m !! k with
  | Some _ => m
  | None => <[k := p]> m
  end.

(** [MATCH (n {key: row.x})]: the key when such a node exists; a null
    [row.x] matches nothing. *)
Definition match_node {K V} `{Countable K} (m : gmap K V) (k : option K) : option K :=
  match k with
  | Some k' => if bool_decide (is_Some (m !! k')) then Some k' else None
  | None => None
  end.

(** [MERGE (a)-[:T]->(b)] after both MATCHes; nothing when one fails. *)
Definition merge_edge {A B} `{Countable A} `{Countable B}
    (a : option A) (b : option B) (s : gset (A * B)) : gset (A * B) :=
  match a, b with
  | Some x, Some y => {[(x, y)]} ∪ s
  | _, _ => s
  end.

Section Bulk.
(** Neo4j's [toInteger] on a string ([None] when it does not parse). *)
Variable to_integer : string -> option Z.

Definition toInteger (v : option string) : option nval :=
  match v ≫= to_integer with Some z => Some (NInt z) | None => None end.

Definition field (row : csvrow) (k : string) : option nval := NStr <$> row !! k.

(** One row of each LOAD CSV statement; [None] is the Neo4j error of a
    MERGE on a null key. *)
Definition load_account (row : csvrow) (g : bgraph) : option bgraph :=
  match row !! "account_id" with
  | None => None
  | Some k =>
      let p := props_of
        [("username", field row "username");
         ("created_at", field row "created_at");
         ("created_via", field row "created_via");
         ("account_display_name", field row "account_display_name");
         ("num_tweets", toInteger (row !! "num_tweets"));
         ("num_following", toInteger (row !! "num_following"));
         ("num_followers", toInteger (row !! "num_followers"));
         ("num_likes", toInteger (row !! "num_likes"))] in
      Some (mkBGraph (merge_on_create k p (accounts g)) (tweets g) (media g)
              (tweeted g) (follows g) (likes g) (has_media g))
  end.

Definition load_tweet (row : csvrow) (g : bgraph) : option bgraph :=
  match row !! "tweet_id" with
  | None => None
  | Some t =>
      let p := props_of
        [("full_text", field row "full_text");
         ("created_at", field row "created_at");
         ("retweet_count", toInteger (row !! "retweet_count"));
         ("favorite_count", toInteger (row !! "favorite_count"))] in
      let tw := merge_on_create t p (tweets g) in
      let a := match_node (accounts g) (row !! "account_id") in
      Some (mkBGraph (accounts g) tw (media g)
              (merge_edge a (Some t) (tweeted g)) (follows g) (likes g) (has_media g))
  end.

Definition load_follower (row : csvrow) (g : bgraph) : option bgraph :=
  let acc := match_node (accounts g) (row !! "account_id") in
  let follower := match_node (accounts g) (row !! "follower_account_id") in
  Some (mkBGraph (accounts g) (tweets g) (media g) (tweeted g)
          (merge_edge follower acc (follows g)) (likes g) (has_media g)).

Definition load_following (row : csvrow) (g : bgraph) : option bgraph :=
  let acc := match_node (accounts g) (row !! "account_id") in
  let followee := match_node (accounts g) (row !! "following_account_id") in
  Some (mkBGraph (accounts g) (tweets g) (media g) (tweeted g)
          (merge_edge acc followee (follows g)) (likes g) (has_media g)).

Definition load_like (row : csvrow) (g : bgraph) : option bgraph :=
  let a := match_node (accounts g) (row !! "account_id") in
  let t := match_node (tweets g) (row !! "liked_tweet_id") in
  Some (mkBGraph (accounts g) (tweets g) (media g) (tweeted g) (follows g)
          (merge_edge a t (likes g)) (has_media g)).

Definition load_media (row : csvrow) (g : bgraph) : option bgraph :=
  match row !! "media_id" ≫= to_integer with
  | None => None
  | Some m =>
      let p := props_of
        [("media_url", field row "media_url");
         ("media_type", field row "media_type");
         ("width", toInteger (row !! "width"));
         ("height", toInteger (row !! "height"))] in
      let t := match_node (tweets g) (row !! "tweet_id") in
      Some (mkBGraph (accounts g) (tweets g) (merge_on_create m p (media g))
              (tweeted g) (follows g) (likes g) (merge_edge t (Some m) (has_media g)))
  end.
End Bulk.

(** All rows of one chunk in one transaction: [None] when one fails. *)
Fixpoint run_chunk {R G} (step : R -> G -> option G) (rows : list R) (g : G) : option G :=
  match rows with
  | [] => Some g
  | r :: rest => match step r g with Some g' => run_chunk step rest g' | None => None end
  end.

(** USING PERIODIC COMMIT 1000: the rows are cut in chunks of 1000, each
    committed on its own; [chunks_aux] accumulates the current chunk. *)
Fixpoint chunks_aux {R} (rows : list R) (cur : list R) (n : nat) : list (list R) :=
  match rows with
  | [] => match cur with [] => [] | _ => [rev cur] end
  | r :: rest =>
      if bool_decide (S n = 1000) then rev (r :: cur) :: chunks_aux rest [] 0
      else chunks_aux rest (r :: cur) (S n)
  end.

Definition chunks {R} (rows : list R) : list (list R) := chunks_aux rows [] 0.

(** The committed graph after the chunks, and whether the statement
    failed: a failing chunk is rolled back and ends the statement. *)
Fixpoint run_chunks {R G} (step : R -> G -> option G) (cs : list (list R)) (g : G)
    : G * bool :=
  match cs with
  | [] => (g, false)
  | c :: rest =>
      match run_chunk step c g with
      | Some g' => run_chunks step rest g'
      | None => (g, true)
      end
  end.

Definition run_statement {R G} (step : R -> G -> option G) (rows : list R) (g : G)
    : G * bool :=
  run_chunks step (chunks rows) g.

(** [load_data_into_neo4j]: the statements in order; the first failing one
    raises out of the function, and the graph keeps what was committed.
    The constraints and [db.awaitIndexes()] do not change the data. *)
Definition load_data_into_neo4j (to_integer : string -> option Z)
    (csv : csv_files) (g : bgraph) : outcome unit * bgraph :=
  let err := Neo4jError "Cannot merge node using null property value" in
  let '(g, e) := run_statement (load_account to_integer) (account_csv csv) g in
  if e then (Raise err, g) else
  let '(g, e) := run_statement (load_tweet to_integer) (enriched_tweets_csv csv) g in
  if e then (Raise err, g) else
  let '(g, e) := run_statement load_follower (followers_csv csv) g in
  if e then (Raise err, g) else
  let '(g, e) := run_statement load_following (following_csv csv) g in
  if e then (Raise err, g) else
  let '(g, e) := run_statement load_like (likes_csv csv) g in
  if e then (Raise err, g) else
  let '(g, e) := run_statement (load_media to_integer) (tweet_media_csv csv) g in
  if e then (Raise err, g) else
  (Ret tt, g).

(* ------------------------------------------------------------------ *)
(** ** Predicates used by the proofs *)

(** What a property lookup gives after [SET n.k = v]. *)
Definition jprop (v : jval) : option jval :=
  match v with JNull => None | JStr s => Some (JStr s) end.

(** The five descriptive properties the per-row statement sets. *)
Definition descriptive_keys : list string :=
  ["username"; "account_display_name"; "bio"; "location"; "avatar_media_url"].

(** Node [x] carries the properties the per-row statement would set on
    it. *)
Definition fixed_node (account_details : gmap jval dict) (x : jval) (w : ugraph) : Prop :=
  exists p, users w !! x = Some p /\ set_details (endpoint_params account_details x) p = p.

(** A graph contains another: same or more nodes (with the same
    properties) and same or more relationships. *)
Definition bsub (g g' : bgraph) : Prop :=
  accounts g ⊆ accounts g' /\ tweets g ⊆ tweets g' /\ media g ⊆ media g' /\
  tweeted g ⊆ tweeted g' /\ follows g ⊆ follows g' /\ likes g ⊆ likes g' /\
  has_media g ⊆ has_media g'.

(** ... with the same [:Account] nodes. *)
Definition bsub_acc (g g' : bgraph) : Prop := bsub g g' /\ accounts g' = accounts g.

(** ... with the same [:Account] and [:Tweet] nodes. *)
Definition bsub_tw (g g' : bgraph) : Prop := bsub_acc g g' /\ tweets g' = tweets g.

(** The effect of one CSV row is already in the graph. *)
Definition account_fixed (row : csvrow) (g : bgraph) : Prop :=
  exists k, row !! "account_id" = Some k /\ is_Some (accounts g !! k).

Definition tweet_fixed (row : csvrow) (g : bgraph) : Prop :=
  exists t, row !! "tweet_id" = Some t /\ is_Some (tweets g !! t) /\
    forall a, match_node (accounts g) (row !! "account_id") = Some a -> (a, t) ∈ tweeted g.

Definition follower_fixed (row : csvrow) (g : bgraph) : Prop :=
  forall a b, match_node (accounts g) (row !! "account_id") = Some a ->
    match_node (accounts g) (row !! "follower_account_id") = Some b -> (b, a) ∈ follows g.

Definition following_fixed (row : csvrow) (g : bgraph) : Prop :=
  forall a b, match_node (accounts g) (row !! "account_id") = Some a ->
    match_node (accounts g) (row !! "following_account_id") = Some b -> (a, b) ∈ follows g.

Definition like_fixed (row : csvrow) (g : bgraph) : Prop :=
  forall a t, match_node (accounts g) (row !! "account_id") = Some a ->
    match_node (tweets g) (row !! "liked_tweet_id") = Some t -> (a, t) ∈ likes g.

Definition media_fixed (to_integer : string -> option Z) (row : csvrow) (g : bgraph) : Prop :=
  exists m, row !! "media_id" ≫= to_integer = Some m /\ is_Some (media g !! m) /\
    forall t, match_node (tweets g) (row !! "tweet_id") = Some t -> (t, m) ∈ has_media g.

(** What makes a LOAD CSV statement repeatable: a row fails whatever the
    graph, a row keeps [rel], leaves its effect in the graph, changes
    nothing when its effect is there, and that effect survives [rel]. *)
Record stage_ok {Row G : Type} (step : Row -> G -> option G)
    (rel : G -> G -> Prop) (fixed : Row -> G -> Prop) : Prop := {
  stage_fail : forall r g g', step r g = None -> step r g' = None;
  stage_rel : forall r g g', step r g = Some g' -> rel g g';
  stage_fixed : forall r g g', step r g = Some g' -> fixed r g';
  stage_noop : forall r g, fixed r g -> step r g = Some g;
  stage_persist : forall r g g', rel g g' -> fixed r g -> fixed r g';
}.

(* ------------------------------------------------------------------ *)
(** ** The rows of a committed batch *)

(** The (followed, follower) pair of a row whose two IDs are valid. *)
Definition valid_pair (valid_ids : gset jval) (row : dict) : option (jval * jval) :=
  match row !! "account_id", row !! "follower_account_id" with
  | Some a, Some b => if bool_decide (a ∈ valid_ids /\ b ∈ valid_ids) then Some (a, b) else None
  | _, _ => None
  end.

Definition valid_pairs (valid_ids : gset jval) (rows : list dict) : list (jval * jval) :=
  omap (valid_pair valid_ids) rows.

(** The skip line of a row with an ID outside the valid set. *)
Definition skip_line (valid_ids : gset jval) (row : dict) : option line :=
  match row !! "account_id", row !! "follower_account_id" with
  | Some a, Some b => if bool_decide (a ∈ valid_ids /\ b ∈ valid_ids) then None else Some (LSkip a b)
  | _, _ => None
  end.

(** The IDs of the endpoints of the valid rows. *)
Definition batch_endpoints (valid_ids : gset jval) (rows : list dict) : list jval :=
  flat_map (fun p => [p.1; p.2]) (valid_pairs valid_ids rows).

(** Every row carries both keys the loop reads. *)
Definition has_keys (row : dict) : Prop :=
  is_Some (row !! "account_id") /\ is_Some (row !! "follower_account_id").

(* ------------------------------------------------------------------ *)
(** ** Bulk-graph relationships that join existing nodes *)

Definition no_dangling (g : bgraph) : Prop :=
  (forall a t, (a, t) ∈ tweeted g -> is_Some (accounts g !! a) /\ is_Some (tweets g !! t)) /\
  (forall a b, (a, b) ∈ follows g -> is_Some (accounts g !! a) /\ is_Some (accounts g !! b)) /\
  (forall a t, (a, t) ∈ likes g -> is_Some (accounts g !! a) /\ is_Some (tweets g !! t)) /\
  (forall t m, (t, m) ∈ has_media g -> is_Some (tweets g !! t) /\ is_Some (media g !! m)).

(* ------------------------------------------------------------------ *)
(** ** [export_table_to_csv] and [main] of [main.py] *)

Definition TABLES_TO_EXPORT : list (string * string) :=
  [("account", "account.csv");
   ("enriched_tweets", "enriched_tweets.csv");
   ("followers", "followers.csv");
   ("following", "following.csv");
   ("likes", "likes.csv");
   ("tweet_media", "tweet_media.csv")].

(** [os.path.expanduser("~/neo4j/csv_exports")], [home] being the home
    directory without a trailing separator. *)
Definition CSV_EXPORT_DIR (home : string) : string := home +:+ "/neo4j/csv_exports".

(** [os.path.join(dir, name)] for a relative [name]; [dir] does not end
    in a separator. *)
Definition path_join (dir name : string) : string := dir +:+ "/" +:+ name.

Definition export_query (table_name : string) : string :=
  "COPY (SELECT * FROM " +:+ table_name +:+ ") TO STDOUT WITH CSV HEADER".

(** Lines printed by [main] and [load_data_into_neo4j]. *)
Inductive main_line :=
| MConnectingPg                            (* Connecting to Postgres (Supabase)... *)
| MPgConnected                             (* Successfully connected ... *)
| MPgConnectError (msg : string)           (* Error connecting to Supabase PostgreSQL: msg *)
| MExporting                               (* Exporting tables to CSV... *)
| MExportTable (table path : string)       (*   -> Exporting table to path *)
| MExportComplete                          (* Postgres export complete. *)
| MConnectingNeo                           (* Connecting to Neo4j... *)
| MLoading                                 (* Loading CSV data into Neo4j... *)
| MLoadCompleted                           (* Data load into Neo4j completed successfully! *)
| MDone.                                   (* Done. *)

(** Calls on the Postgres connection, its cursor and the Neo4j driver. *)
Inductive main_call :=
| CPgConnect
| CCopy (query path : string)
| CCursorClose
| CConnClose
| CDriverClose.

(** Exceptions that leave [main]. *)
Inductive main_exn :=
| ExnOS (msg : string)
| ExnPg (msg : string)
| ExnNeo (e : exn).

(** The Postgres side and the file system: [makedirs_fail] when
    [os.makedirs] raises, [connect_fail] when connecting or opening the
    cursor raises, and [copy_out q] the CSV that [copy_expert(q, f)]
    writes to [f], with the error it raises after writing it, if any. *)
Record pg_env := mkPgEnv {
  makedirs_fail : option string;
  connect_fail : option string;
  copy_out : string -> list csvrow * option string;
}.

(** The files, by path. *)
Abbreviation files := (gmap string (list csvrow)).

(** [export_table_to_csv]: [open(path, "w")] then [copy_expert]; the file
    holds what was written even when the copy raises. *)
Definition export_table_to_csv (pe : pg_env) (table_name csv_file_path : string) (fs : files)
    : files * option main_exn :=
  let '(content, err) := copy_out pe (export_query table_name) in
  (<[csv_file_path := content]> fs, ExnPg <$> err).

(** The export loop: printed lines, calls, files, and the exception that
    ends it, if any. *)
Fixpoint export_all (pe : pg_env) (dir : string) (tables : list (string * string)) (fs : files)
    : list main_line * list main_call * files * option main_exn :=
  match tables with
  | [] => ([], [], fs, None)
  | (table_name, csv_filename) :: rest =>
      let csv_path := path_join dir csv_filename in
      let '(fs', err) := export_table_to_csv pe table_name csv_path fs in
      let here := (MExportTable table_name csv_path, CCopy (export_query table_name) csv_path) in
      match err with
      | Some e => ([here.1], [here.2], fs', Some e)
      | None =>
          let '(o, c, fs'', e) := export_all pe dir rest fs' in
          (here.1 :: o, here.2 :: c, fs'', e)
      end
  end.

Record main_result := mkMainResult {
  m_out : list main_line;
  m_calls : list main_call;
  m_exn : option main_exn;
  m_files : files;
  m_graph : bgraph;
}.

(** [main]: [neo_csv] is what the LOAD CSV statements read from
    [file:///account.csv], ...; Neo4j resolves these names in its own
    import directory, which the script does not set. *)
Definition main_py (pe : pg_env) (home : string) (to_integer : string -> option Z)
    (neo_csv : csv_files) (fs : files) (g : bgraph) : main_result :=
  match makedirs_fail pe with
  | Some msg => mkMainResult [] [] (Some (ExnOS msg)) fs g
  | None =>
  match connect_fail pe with
  | Some msg => mkMainResult [MConnectingPg; MPgConnectError msg] [CPgConnect] None fs g
  | None =>
      let '(o, c, fs', err) := export_all pe (CSV_EXPORT_DIR home) TABLES_TO_EXPORT fs in
      let out1 := [MConnectingPg; MPgConnected; MExporting] ++ o in
      match err with
      | Some e => mkMainResult out1 (CPgConnect :: c) (Some e) fs' g
      | None =>
          let out2 := out1 ++ [MExportComplete; MConnectingNeo; MLoading] in
          let calls2 := CPgConnect :: c ++ [CCursorClose; CConnClose] in
          match load_data_into_neo4j to_integer neo_csv g with
          | (Raise e, g') => mkMainResult out2 calls2 (Some (ExnNeo e)) fs' g'
          | (Ret _, g') =>
              mkMainResult (out2 ++ [MLoadCompleted; MDone]) (calls2 ++ [CDriverClose])
                None fs' g'
          end
      end
  end
  end.

(** The files after the tables have been exported in order. *)
Definition exported (pe : pg_env) (dir : string) (tables : list (string * string)) (fs : files)
    : files :=
  foldl (fun acc tn => <[path_join dir tn.2 := fst (copy_out pe (export_query tn.1))]> acc) fs tables.

Definition export_lines (dir : string) (tables : list (string * string)) : list main_line :=
  map (fun tn => MExportTable tn.1 (path_join dir tn.2)) tables.

Definition export_calls (dir : string) (tables : list (string * string)) : list main_call :=
  map (fun tn => CCopy (export_query tn.1) (path_join dir tn.2)) tables.


(* ================================================================== *)
(** * Proofs *)

(* ------------------------------------------------------------------ *)
(** ** The valid-ID set *)

Lemma collect_ids_spec (rows : list dict) (v : jval) :
  v ∈ collect_ids rows <-> exists row, row ∈ rows /\ row !! "account_id" = Some v.
Proof.
  induction rows as [|row rows IH]; simpl.
  - split; [set_solver|]. intros (row & Hin & _). set_solver.
  - destruct (row !! "account_id") as [w|] eqn:Hrow.
    + rewrite elem_of_union, elem_of_singleton, IH. split.
      * intros [->|(r & Hr & Hv)]; [exists row; split; [left|]; done|].
        exists r. split; [by right|done].
      * intros (r & Hr & Hv). apply elem_of_cons in Hr as [->|Hr].
        -- left. congruence.
        -- right. eauto.
    + rewrite IH. split.
      * intros (r & Hr & Hv). exists r. split; [by right|done].
      * intros (r & Hr & Hv). apply elem_of_cons in Hr as [->|Hr]; [congruence|eauto].
Qed.

(** C8: on a successful query, [fetch_valid_account_ids] returns (without
    raising) exactly the set of the [account_id] values of the rows that
    have that field; rows without it are left out. *)
Theorem fetch_valid_account_ids_exact (rows : list dict) :
  exists out valid_ids,
    fetch_valid_account_ids (Data rows) = (out, Ret valid_ids) /\
    forall v, v ∈ valid_ids <-> exists row, row ∈ rows /\ row !! "account_id" = Some v.
Proof.
  eexists _, (collect_ids rows). split; [reflexivity|]. apply collect_ids_spec.
Qed.

(* ------------------------------------------------------------------ *)
(** ** Fetch failures *)

(** C5: the valid-ID fetch has no try/except: an API error of its query
    reaches [main] as the bare [APIError], while the two sibling fetches
    wrap the same error in a [RuntimeError]. *)
Theorem valid_ids_fetch_error_unwrapped :
  fetch_valid_account_ids (ApiFail "JWT expired") = ([], Raise (APIError "JWT expired")) /\
  fetch_account_details (ApiFail "JWT expired") =
    ([], Raise (RuntimeError "Account details query failed" (APIError "JWT expired"))) /\
  fst (import_main (ApiFail "JWT expired") (Data []) [] (fun _ t => t) (fun _ => None)
         (mkNeoEnv None (fun _ => None) None) (mkUGraph ∅ ∅))
    = ([], Raise (APIError "JWT expired")).
Proof. split; [reflexivity|split; reflexivity]. Qed.

(* ------------------------------------------------------------------ *)
(** ** Pagination *)

Lemma range_page (k : nat) (l : list dict) :
  range_rows (k * page_size) ((k + 1) * page_size - 1) l =
    take page_size (drop (k * page_size) l).
Proof. unfold range_rows, page_size. f_equal. lia. Qed.

Lemma div_page (len k : nat) :
  k * page_size <= len -> len < k * page_size + page_size -> len / page_size = k.
Proof.
  intros H1 H2. symmetry. apply (Nat.div_unique _ _ _ (len - k * page_size));
    unfold page_size in *; lia.
Qed.

Lemma full_query_length (table : list follower_row) (values : list string) :
  length (full_query table values) <= length table.
Proof. unfold full_query. rewrite length_map. apply length_filter. Qed.

(** Reordering the table does not change the size of the result. *)
Lemma full_query_perm_length (table table' : list follower_row) (values : list string) :
  Permutation table' table ->
  length (full_query table' values) = length (full_query table values).
Proof.
  intros Hp. unfold full_query. rewrite !length_map.
  apply Permutation_length. change (Permutation table' table) with (table' ≡ₚ table) in Hp.
  by rewrite Hp.
Qed.

Section PaginationProofs.
Variable table : list follower_row.
Variable values : list string.
Variable order : nat -> list follower_row -> list follower_row.
(** Every request sees the same number of rows, [len]. *)
Variable len : nat.
Hypothesis Hlen : forall k, length (full_query (order k table) values) = len.

Lemma page_length (k : nat) :
  length (page_of table values order k) = Nat.min page_size (len - k * page_size).
Proof. unfold page_of. rewrite length_take, length_drop, Hlen. lia. Qed.

Lemma request_page_ok (api_fail : nat -> option string) (k : nat) :
  api_fail k = None ->
  request_page table values order api_fail k = Data (page_of table values order k).
Proof. intros Hk. unfold request_page. rewrite Hk, range_page. done. Qed.



(** The pages from [k] on hold the rest of the [len] rows. *)
Lemma concat_pages_length (m k : nat) :
  len < (k + m) * page_size ->
  length (concat (map (page_of table values order) (seq k m))) = len - k * page_size.
Proof.
  revert k. induction m as [|m IH]; intros k Hlt.
  - rewrite Nat.add_0_r in Hlt. simpl. lia.
  - cbn [seq map concat]. rewrite length_app, page_length, IH by (unfold page_size in *; lia).
    unfold page_size in *. lia.
Qed.

(** Without API errors, the loop from page [k] prints one line per full
    page and returns [acc] followed by the pages from [k] on. *)
Lemma page_loop_log (f k : nat) (acc : list dict) :
  k * page_size <= len ->
  len < k * page_size + f * page_size ->
  page_loop table values order (fun _ => None) f k acc =
    Some (map (fun j => LPage (S j) page_size) (seq k (len / page_size - k)),
          Ret (acc ++ concat (map (page_of table values order)
                                  (seq k (S (len / page_size) - k))))).
Proof.
  revert k acc. induction f as [|f IH]; intros k acc Hle Hlt; [unfold page_size in *; lia|].
  remember (len / page_size) as q eqn:Hqe.
  cbn [page_loop]. rewrite request_page_ok by done. cbn [execute mret].
  case_bool_decide as Hshort; rewrite page_length in Hshort.
  - assert (Hk : q = k) by (subst q; apply div_page; unfold page_size in *; lia).
    subst q. rewrite Hk, Nat.sub_diag. replace (S k - k) with 1 by lia.
    cbn. rewrite app_nil_r. done.
  - rewrite IH by (unfold page_size in *; lia).
    assert (Hq : k < q).
    { subst q. apply Nat.div_le_lower_bound; unfold page_size in *; lia. }
    replace (q - k) with (S (q - S k)) by lia.
    replace (S q - k) with (S (S q - S k)) by lia.
    cbn [seq map concat mbind mprint app].
    rewrite page_length.
    replace (Nat.min page_size (len - k * page_size)) with page_size
      by (unfold page_size in *; lia).
    rewrite app_assoc. done.
Qed.

(** An API error on page [k'], after successful requests from page [k]. *)
Lemma page_loop_error (api_fail : nat -> option string) (msg : string)
    (f k k' : nat) (acc : list dict) :
  k <= k' -> k' < k + f -> k' * page_size <= len ->
  (forall j, k <= j < k' -> api_fail j = None) -> api_fail k' = Some msg ->
  page_loop table values order api_fail f k acc =
    Some (map (fun j => LPage (S j) page_size) (seq k (k' - k)), Raise (APIError msg)).
Proof.
  revert k acc. induction f as [|f IH]; intros k acc Hk Hf Hl Hok Hfail; [lia|].
  cbn [page_loop].
  destruct (decide (k = k')) as [->|Hne].
  - unfold request_page at 1. rewrite Hfail. cbn. by rewrite Nat.sub_diag.
  - rewrite request_page_ok by (apply Hok; lia). cbn [execute mret].
    rewrite bool_decide_false.
    2:{ rewrite page_length. unfold page_size in *; nia. }
    rewrite (IH (S k)) by first [lia | done | intros j Hj; apply Hok; lia].
    replace (k' - k) with (S (k' - S k)) by lia. cbn [seq map mbind mprint app].
    rewrite page_length.
    replace (Nat.min page_size (len - k * page_size)) with page_size
      by (unfold page_size in *; nia).
    done.
Qed.
End PaginationProofs.

Lemma print_first_lines (i : nat) (rs : list follower_row) :
  print_first i (map project rs) =
    (zip_with (fun n r => LFirst n (f_account_id r) (f_follower_account_id r))
       (seq (S i) (length rs)) rs, Ret tt).
Proof.
  revert i. induction rs as [|r rs IH]; intros i; [done|]. simpl.
  unfold project at 1 2. unfold getitem.
  rewrite lookup_insert_eq. simpl.
  rewrite lookup_insert_ne by done. rewrite lookup_insert_eq. simpl.
  rewrite IH. done.
Qed.

(** C3 fails on the code: the page requests have no [.order()], so each
    one may read the filtered rows in another order, and the pages then
    overlap and miss rows.  Here 1001 distinct valid relationships are
    read in reverse order for page 0 and in table order for page 1: the
    fetch returns as many rows as the full result, but its last row
    twice and its first row not at all. *)
Theorem follower_pages_unordered :
  let full := full_query sample_table (map py_str (elements sample_valid_ids)) in
  (forall k, Permutation (sample_order k sample_table) sample_table) /\
  full !! 0 = Some (project (mkFollowerRow (sample_id 0) (sample_id 1))) /\
  full !! 1000 = Some (project (mkFollowerRow (sample_id 31) (sample_id 8))) /\
  exists out rels,
    fetch_follower_relationships sample_valid_ids sample_table sample_order (fun _ => None)
      = (out, Ret rels) /\
    length rels = length full /\
    (project (mkFollowerRow (sample_id 0) (sample_id 1)) ∉ rels) /\
    length (filter (fun d => d = project (mkFollowerRow (sample_id 31) (sample_id 8))) rels) = 2 /\
    length (filter (fun d => d = project (mkFollowerRow (sample_id 31) (sample_id 8))) full) = 1.
Proof.
  cbv zeta.
  split.
  { intros k. unfold sample_order. case_bool_decide; [|reflexivity].
    apply Permutation_sym, Permutation_rev. }
  split; [apply (bool_decide_unpack _); vm_compute; exact I|].
  split; [apply (bool_decide_unpack _); vm_compute; exact I|].
  assert (Hr : match snd (fetch_follower_relationships sample_valid_ids sample_table
                            sample_order (fun _ => None)) with
               | Ret rels =>
                   bool_decide (length rels = length (full_query sample_table
                                  (map py_str (elements sample_valid_ids))) /\
                     (project (mkFollowerRow (sample_id 0) (sample_id 1)) ∉ rels) /\
                     length (filter (fun d => d = project (mkFollowerRow (sample_id 31)
                                                  (sample_id 8))) rels) = 2)
               | Raise _ => false
               end = true) by (vm_compute; reflexivity).
  destruct (fetch_follower_relationships sample_valid_ids sample_table sample_order
              (fun _ => None)) as [out [rels|e]]; [|discriminate].
  apply bool_decide_eq_true in Hr as (H1 & H2 & H3).
  exists out, rels. do 4 (split; [done|]).
  apply (bool_decide_unpack _); vm_compute; exact I.
Qed.



(* ------------------------------------------------------------------ *)
(** ** Node properties written by the per-row statement *)

Lemma lookup_set_prop (k : string) (v : jval) (m : dict) (p : string) :
  set_prop k v m !! p = if decide (k = p) then jprop v else m !! p.
Proof.
  destruct v as [|s]; simpl; case_decide as Hk; subst.
  - by rewrite lookup_delete_eq.
  - by rewrite lookup_delete_ne.
  - by rewrite lookup_insert_eq.
  - by rewrite lookup_insert_ne.
Qed.

Lemma set_details_cons (kv : string * jval) (pl : list (string * jval)) (m : dict) :
  set_details (kv :: pl) m = set_details pl (set_prop kv.1 kv.2 m).
Proof. reflexivity. Qed.

Lemma set_details_notin (pl : list (string * jval)) (m : dict) (p : string) :
  p ∉ pl.*1 -> set_details pl m !! p = m !! p.
Proof.
  revert m. induction pl as [|[k v] pl IH]; intros m Hp; [done|].
  rewrite set_details_cons. simpl in Hp. rewrite not_elem_of_cons in Hp.
  destruct Hp as [Hpk Hp]. rewrite IH by done. rewrite lookup_set_prop. simpl.
  case_decide; [congruence|done].
Qed.

Lemma set_details_in (pl : list (string * jval)) (m m' : dict) (p : string) :
  p ∈ pl.*1 -> set_details pl m !! p = set_details pl m' !! p.
Proof.
  revert m m'. induction pl as [|[k v] pl IH]; intros m m' Hp; [by apply elem_of_nil in Hp|].
  rewrite !set_details_cons. simpl in Hp.
  destruct (decide (p ∈ pl.*1)) as [Hin|Hnin]; [by apply IH|].
  apply elem_of_cons in Hp as [->|Hp]; [|done].
  rewrite !set_details_notin by done. rewrite !lookup_set_prop. simpl.
  destruct (decide (k = k)); [done|congruence].
Qed.

Lemma set_details_idem (pl : list (string * jval)) (m : dict) :
  set_details pl (set_details pl m) = set_details pl m.
Proof.
  apply map_eq. intros p.
  destruct (decide (p ∈ pl.*1)) as [Hin|Hnin].
  - by apply set_details_in.
  - by rewrite !set_details_notin.
Qed.

Lemma endpoint_params_keys (account_details : gmap jval dict) (x : jval) :
  (endpoint_params account_details x).*1 = descriptive_keys.
Proof. reflexivity. Qed.

(** After the SETs of one endpoint, each descriptive property holds the
    looked-up detail (absent when the detail is null or missing). *)
Lemma endpoint_props_lookup (account_details : gmap jval dict) (x : jval)
    (m : dict) (p : string) :
  p ∈ descriptive_keys ->
  set_details (endpoint_params account_details x) m !! p =
    jprop (dict_get (default ∅ (account_details !! x)) p).
Proof.
  intros Hp. unfold endpoint_params. simpl. rewrite !lookup_set_prop.
  unfold descriptive_keys in Hp.
  repeat (apply elem_of_cons in Hp as [->|Hp]; [repeat case_decide; congruence|]).
  by apply elem_of_nil in Hp.
Qed.

Lemma endpoint_props_frame (account_details : gmap jval dict) (x : jval)
    (m : dict) (p : string) :
  p ∉ descriptive_keys ->
  set_details (endpoint_params account_details x) m !! p = m !! p.
Proof. intros Hp. apply set_details_notin. by rewrite endpoint_params_keys. Qed.

(* ------------------------------------------------------------------ *)
(** ** The per-row transaction *)

Section InsertProofs.
Variable valid_ids : gset jval.
Variable account_details : gmap jval dict.
Variable env : neo_env.

Local Abbreviation P x := (endpoint_params account_details x).
#[local] Arguments set_details : simpl never.
Let run := tx_rows valid_ids account_details env.


Lemma merge_user_noop (x : jval) (w : ugraph) :
  fixed_node account_details x w -> merge_user x (P x) w = w.
Proof.
  intros (p & Hx & Hp). destruct w as [us fb]. unfold merge_user. simpl in *.
  rewrite Hx. simpl. rewrite Hp. by rewrite insert_id.
Qed.

Lemma merge_user_establish (x : jval) (w : ugraph) :
  fixed_node account_details x (merge_user x (P x) w).
Proof.
  eexists. split; [simpl; by rewrite lookup_insert_eq|]. apply set_details_idem.
Qed.

Lemma merge_user_preserve (x y : jval) (w : ugraph) :
  fixed_node account_details x w -> fixed_node account_details x (merge_user y (P y) w).
Proof.
  intros Hx. destruct (decide (x = y)) as [->|Hne]; [by rewrite merge_user_noop|].
  destruct Hx as (p & Hp & Hfix). exists p. simpl. by rewrite lookup_insert_ne.
Qed.

Lemma merge_user_frame (x y : jval) (w : ugraph) (q : string) :
  q ∉ descriptive_keys ->
  default ∅ (users (merge_user y (P y) w) !! x) !! q = default ∅ (users w !! x) !! q.
Proof.
  intros Hq. simpl. destruct (decide (x = y)) as [->|Hne].
  - rewrite lookup_insert_eq. simpl. by apply endpoint_props_frame.
  - by rewrite lookup_insert_ne.
Qed.

Lemma upsert_row_inv (a b : jval) (w w' : ugraph) :
  upsert_row a b (P a) (P b) w = Some w' ->
  a <> JNull /\ b <> JNull /\
  users w' = users (merge_user b (P b) (merge_user a (P a) w)) /\
  followed_by w' = {[(a, b)]} ∪ followed_by w.
Proof.
  unfold upsert_row. destruct a, b; try discriminate.
  intros [= <-]. simpl. done.
Qed.

(** One row of a loop that ends without exception. *)
Lemma tx_rows_cons_ret (row : dict) (rest : list dict) (i : nat) (w wf : ugraph) :
  tx_outcome (run (row :: rest) i w) = Ret wf ->
  exists a b, row !! "account_id" = Some a /\ row !! "follower_account_id" = Some b /\
    ((~ (a ∈ valid_ids /\ b ∈ valid_ids) /\ tx_outcome (run rest i w) = Ret wf /\
      LSkip a b ∈ tx_out (run (row :: rest) i w)) \/
     (a ∈ valid_ids /\ b ∈ valid_ids /\ exists w',
        run_fail env i = None /\ upsert_row a b (P a) (P b) w = Some w' /\
        tx_outcome (run rest (S i) w') = Ret wf)).
Proof.
  unfold run. simpl.
  destruct (row !! "account_id") as [a|]; [|discriminate].
  destruct (row !! "follower_account_id") as [b|]; [|discriminate].
  case_bool_decide as Hv; simpl.
  - intros Hr. exists a, b. do 2 (split; [done|]). left.
    split; [intros [Ha Hb]; destruct Hv; tauto|]. split; [done|]. left.
  - intros Hr. destruct (run_fail env i); [discriminate|].
    destruct (upsert_row a b _ _ w) as [w'|] eqn:Hu; [|discriminate].
    exists a, b. do 2 (split; [done|]). right.
    assert (a ∈ valid_ids /\ b ∈ valid_ids) as [Ha Hb].
    { destruct (decide (a ∈ valid_ids)), (decide (b ∈ valid_ids)); tauto. }
    split; [done|]. split; [done|]. exists w'. done.
Qed.
Lemma upsert_row_fixed (a b x : jval) (w w' : ugraph) :
  upsert_row a b (P a) (P b) w = Some w' -> fixed_node account_details x w -> fixed_node account_details x w'.
Proof.
  intros Hu Hx. apply upsert_row_inv in Hu as (_ & _ & Hus & _).
  pose proof (merge_user_preserve x b _ (merge_user_preserve x a w Hx)) as (p & Hp & Hfix).
  exists p. by rewrite Hus.
Qed.

(** Nodes and edges are kept by the rest of the loop. *)
Lemma tx_rows_keeps (rows : list dict) (i : nat) (w wf : ugraph) :
  tx_outcome (run rows i w) = Ret wf ->
  (forall x, fixed_node account_details x w -> fixed_node account_details x wf) /\
  followed_by w ⊆ followed_by wf.
Proof.
  revert i w. induction rows as [|row rest IH]; intros i w Hr.
  - simpl in Hr. injection Hr as <-. done.
  - apply tx_rows_cons_ret in Hr as (a & b & _ & _ & [(_ & Hr & _)|(_ & _ & w' & _ & Hu & Hr)]).
    + by apply (IH i w).
    + destruct (IH (S i) w' Hr) as [Hfx Hfb]. split.
      * intros x Hx. apply Hfx. by apply (upsert_row_fixed a b x w w').
      * apply upsert_row_inv in Hu as (_ & _ & _ & Hfb'). rewrite Hfb' in Hfb. set_solver.
Qed.

(** The edges after a loop without exception: the old ones and one per
    row whose two endpoints are valid. *)
Lemma tx_rows_edges (rows : list dict) (i : nat) (w wf : ugraph) (e : jval * jval) :
  tx_outcome (run rows i w) = Ret wf ->
  e ∈ followed_by wf <->
  e ∈ followed_by w \/
  exists row, row ∈ rows /\ row !! "account_id" = Some e.1 /\
    row !! "follower_account_id" = Some e.2 /\ e.1 ∈ valid_ids /\ e.2 ∈ valid_ids.
Proof.
  revert i w. induction rows as [|row rest IH]; intros i w Hr.
  - simpl in Hr. injection Hr as <-. split; [by left|].
    intros [He|(row & Hrow & _)]; [done|by apply elem_of_nil in Hrow].
  - apply tx_rows_cons_ret in Hr as (a & b & Ha & Hb & [(Hv & Hr & _)|(Hav & Hbv & w' & _ & Hu & Hr)]).
    + rewrite (IH i w Hr). split.
      * intros [He|(r & Hr' & H1)]; [by left|right; exists r; split; [by right|done]].
      * intros [He|(r & Hr' & H1 & H2 & H3 & H4)]; [by left|].
        apply elem_of_cons in Hr' as [->|Hr']; [|right; by exists r].
        exfalso. apply Hv. destruct e as [e1 e2]; simpl in *. split; congruence.
    + rewrite (IH (S i) w' Hr). apply upsert_row_inv in Hu as (_ & _ & _ & Hfb).
      rewrite Hfb, elem_of_union, elem_of_singleton. split.
      * intros [[He|He]|(r & Hr' & H1)].
        -- right. exists row. subst e. simpl. split; [by left|done].
        -- by left.
        -- right. exists r. split; [by right|done].
      * intros [He|(r & Hr' & H1 & H2 & H3 & H4)]; [left; by right|].
        apply elem_of_cons in Hr' as [->|Hr'].
        -- left. left. destruct e as [e1 e2]; simpl in *. f_equal; congruence.
        -- right. exists r. done.
Qed.

(** After a loop without exception, both endpoints of every valid row
    carry the properties the statement sets, and the edge is there. *)
Lemma tx_rows_fixed (rows : list dict) (i : nat) (w wf : ugraph) :
  tx_outcome (run rows i w) = Ret wf ->
  forall row a b, row ∈ rows -> row !! "account_id" = Some a ->
    row !! "follower_account_id" = Some b -> a ∈ valid_ids -> b ∈ valid_ids ->
    fixed_node account_details a wf /\ fixed_node account_details b wf /\ (a, b) ∈ followed_by wf.
Proof.
  revert i w. induction rows as [|row rest IH]; intros i w Hr r a b Hin Ha Hb Hav Hbv;
    [by apply elem_of_nil in Hin|].
  pose proof Hr as Hr0.
  apply tx_rows_cons_ret in Hr as (a' & b' & Ha' & Hb' & [(Hv & Hr & _)|(Hav' & Hbv' & w' & _ & Hu & Hr)]).
  - apply elem_of_cons in Hin as [->|Hin]; [|by eapply IH].
    exfalso. apply Hv. split; congruence.
  - apply elem_of_cons in Hin as [->|Hin]; [|by eapply IH].
    assert (a' = a) as -> by congruence. assert (b' = b) as -> by congruence.
    destruct (tx_rows_keeps rest (S i) w' wf Hr) as [Hfx Hfb].
    pose proof Hu as Hu'. apply upsert_row_inv in Hu' as (_ & _ & Hus & Hfbw).
    split; [|split].
    + apply Hfx. destruct (merge_user_preserve a b _ (merge_user_establish a w))
        as (p & Hp & Hfix). exists p. by rewrite Hus.
    + apply Hfx. destruct (merge_user_establish b (merge_user a (P a) w))
        as (p & Hp & Hfix). exists p. by rewrite Hus.
    + apply Hfb. rewrite Hfbw. set_solver.
Qed.

(** Properties other than the five descriptive ones are never changed. *)
Lemma tx_rows_frame (rows : list dict) (i : nat) (w wf : ugraph) (x : jval) (q : string) :
  tx_outcome (run rows i w) = Ret wf -> q ∉ descriptive_keys ->
  default ∅ (users wf !! x) !! q = default ∅ (users w !! x) !! q.
Proof.
  revert i w. induction rows as [|row rest IH]; intros i w Hr Hq.
  - simpl in Hr. by injection Hr as <-.
  - apply tx_rows_cons_ret in Hr as (a & b & _ & _ & [(_ & Hr & _)|(_ & _ & w' & _ & Hu & Hr)]).
    + by apply (IH i w).
    + rewrite (IH (S i) w' Hr Hq). apply upsert_row_inv in Hu as (_ & _ & Hus & _).
      rewrite Hus, !merge_user_frame by done. done.
Qed.
Lemma upsert_row_noop (a b : jval) (w : ugraph) :
  fixed_node account_details a w -> fixed_node account_details b w -> (a, b) ∈ followed_by w ->
  upsert_row a b (P a) (P b) w = Some w \/ upsert_row a b (P a) (P b) w = None.
Proof.
  intros Ha Hb Hab. unfold upsert_row. destruct a as [|sa], b as [|sb]; try by right.
  left. rewrite (merge_user_noop _ w Ha), (merge_user_noop _ w Hb).
  destruct w as [us fb]. simpl in *. do 2 f_equal. set_solver.
Qed.

(** From a graph that already holds every valid row, the loop changes
    nothing: it ends on that same graph or raises. *)
Lemma tx_rows_noop (rows : list dict) (i : nat) (w : ugraph) :
  (forall row a b, row ∈ rows -> row !! "account_id" = Some a ->
     row !! "follower_account_id" = Some b -> a ∈ valid_ids -> b ∈ valid_ids ->
     fixed_node account_details a w /\ fixed_node account_details b w /\ (a, b) ∈ followed_by w) ->
  tx_outcome (run rows i w) = Ret w \/ exists e, tx_outcome (run rows i w) = Raise e.
Proof.
  revert i. induction rows as [|row rest IH]; intros i Hall; [by left|].
  unfold run. simpl.
  destruct (row !! "account_id") as [a|] eqn:Ha; [|right; eauto].
  destruct (row !! "follower_account_id") as [b|] eqn:Hb; [|right; eauto].
  assert (forall row a b, row ∈ rest -> row !! "account_id" = Some a ->
     row !! "follower_account_id" = Some b -> a ∈ valid_ids -> b ∈ valid_ids ->
     fixed_node account_details a w /\ fixed_node account_details b w /\ (a, b) ∈ followed_by w) as Hrest.
  { intros r a' b' Hr. apply Hall. by right. }
  case_bool_decide as Hv; simpl; [by apply (IH i)|].
  destruct (run_fail env i); [right; eauto|].
  assert (a ∈ valid_ids /\ b ∈ valid_ids) as [Hav Hbv].
  { destruct (decide (a ∈ valid_ids)), (decide (b ∈ valid_ids)); tauto. }
  destruct (Hall row a b ltac:(by left) Ha Hb Hav Hbv) as (Hfa & Hfb & Hab).
  destruct (upsert_row_noop a b w Hfa Hfb Hab) as [Hs|Hs]; rewrite Hs;
    [|right; eauto].
  by apply (IH (S i)).
Qed.

(** Every row with an endpoint outside the valid set prints its skip
    line. *)
Lemma tx_rows_skip_logged (rows : list dict) (i : nat) (w wf : ugraph) :
  tx_outcome (run rows i w) = Ret wf ->
  forall row a b, row ∈ rows -> row !! "account_id" = Some a ->
    row !! "follower_account_id" = Some b -> ~ (a ∈ valid_ids /\ b ∈ valid_ids) ->
    LSkip a b ∈ tx_out (run rows i w).
Proof.
  revert i w. induction rows as [|row rest IH]; intros i w Hr r a b Hin Ha Hb Hv;
    [by apply elem_of_nil in Hin|].
  revert Hr. unfold run. simpl.
  destruct (row !! "account_id") as [a'|] eqn:Ha'; [|discriminate].
  destruct (row !! "follower_account_id") as [b'|] eqn:Hb'; [|discriminate].
  case_bool_decide as Hv'; simpl.
  - intros Hr. apply elem_of_cons in Hin as [->|Hin].
    + assert (a' = a) as -> by congruence. assert (b' = b) as -> by congruence. left.
    + right. by apply (IH i w Hr r).
  - destruct (run_fail env i); [discriminate|].
    destruct (upsert_row a' b' _ _ w) as [w'|]; [|discriminate].
    intros Hr. simpl. apply elem_of_cons in Hin as [->|Hin].
    + exfalso. apply Hv'. assert (a' = a) by congruence. assert (b' = b) by congruence.
      subst. destruct (decide (a ∈ valid_ids)), (decide (b ∈ valid_ids)); tauto.
    + by apply (IH (S i) w' Hr r).
Qed.

(** The loop only calls [tx.run]. *)
Lemma tx_rows_calls (rows : list dict) (i : nat) (w : ugraph) (c : call) :
  c ∈ tx_calls (run rows i w) -> exists a b, c = CRun a b.
Proof.
  revert i w. induction rows as [|row rest IH]; intros i w; simpl; [by intros ?%elem_of_nil|].
  destruct (row !! "account_id") as [a|]; [|by intros ?%elem_of_nil].
  destruct (row !! "follower_account_id") as [b|]; [|by intros ?%elem_of_nil].
  case_bool_decide; simpl; [apply IH|].
  destruct (run_fail env i).
  - intros ->%list_elem_of_singleton. eauto.
  - destruct (upsert_row a b _ _ w) as [w'|].
    + intros [->|Hc]%elem_of_cons; [eauto|]. by apply (IH (S i) w').
    + intros ->%list_elem_of_singleton. eauto.
Qed.

End InsertProofs.

(** Whether and where the loop raises does not depend on the account
    details nor on the graph. *)
Lemma tx_rows_raised_indep (valid_ids : gset jval) (d d' : gmap jval dict)
    (env : neo_env) (rows : list dict) (i : nat) (w w' : ugraph) :
  tx_calls (tx_rows valid_ids d env rows i w) = tx_calls (tx_rows valid_ids d' env rows i w') /\
  raised (tx_outcome (tx_rows valid_ids d env rows i w)) =
    raised (tx_outcome (tx_rows valid_ids d' env rows i w')).
Proof.
  revert i w w'. induction rows as [|row rest IH]; intros i w w'; simpl; [done|].
  destruct (row !! "account_id") as [a|]; [|done].
  destruct (row !! "follower_account_id") as [b|]; [|done].
  case_bool_decide; simpl; [apply IH|].
  destruct (run_fail env i); [done|].
  unfold upsert_row. destruct a as [|sa], b as [|sb]; try done.
  simpl. destruct (IH (S i)
    (mkUGraph (users (merge_user (JStr sb) (endpoint_params d (JStr sb))
                        (merge_user (JStr sa) (endpoint_params d (JStr sa)) w)))
              ({[(JStr sa, JStr sb)]} ∪ followed_by w))
    (mkUGraph (users (merge_user (JStr sb) (endpoint_params d' (JStr sb))
                        (merge_user (JStr sa) (endpoint_params d' (JStr sa)) w')))
              ({[(JStr sa, JStr sb)]} ∪ followed_by w'))) as [Hc Ho].
  split; [by f_equal|done].
Qed.



Lemma insert_committed_inv (valid_ids : gset jval) (account_details : gmap jval dict)
    (env : neo_env) (rows : list dict) (g : ugraph) :
  committed (insert_relationships_into_neo4j valid_ids account_details env rows g) ->
  schema_fail env = None /\ commit_fail env = None /\
  tx_outcome (tx_rows valid_ids account_details env rows 0 g) =
    Ret (ins_graph (insert_relationships_into_neo4j valid_ids account_details env rows g)).
Proof.
  unfold insert_relationships_into_neo4j, committed.
  destruct (schema_fail env); simpl; [intros [H _]; by apply elem_of_nil in H|].
  destruct (tx_outcome _) as [w|e] eqn:Ho; simpl.
  - destruct (commit_fail env); simpl; [|done].
    intros [_ H]. exfalso. apply H. set_solver.
  - intros [_ H]. exfalso. apply H. set_solver.
Qed.

Lemma insert_committed_out (valid_ids : gset jval) (account_details : gmap jval dict)
    (env : neo_env) (rows : list dict) (g : ugraph) :
  committed (insert_relationships_into_neo4j valid_ids account_details env rows g) ->
  ins_out (insert_relationships_into_neo4j valid_ids account_details env rows g) =
    [LInsertIds (size valid_ids)] ++
    tx_out (tx_rows valid_ids account_details env rows 0 g) ++ [LCommitted].
Proof.
  intros Hc. destruct (insert_committed_inv _ _ _ _ _ Hc) as (Hs & Hcf & Ho).
  revert Ho. unfold insert_relationships_into_neo4j. rewrite Hs.
  destruct (tx_outcome _) as [w|e]; simpl; [|discriminate].
  by rewrite Hcf.
Qed.


Lemma tx_calls_no_commit (valid_ids : gset jval) (account_details : gmap jval dict)
    (env : neo_env) (rows : list dict) (i : nat) (w : ugraph) :
  (CCommit ∉ tx_calls (tx_rows valid_ids account_details env rows i w)) /\
  (CRollback ∉ tx_calls (tx_rows valid_ids account_details env rows i w)).
Proof.
  split; intros Hc; destruct (tx_rows_calls _ _ _ _ _ _ _ Hc) as (a & b & ?); discriminate.
Qed.

(** C1: in a committed batch, the row (a, b) leaves a [FOLLOWED_BY] edge
    from a to b exactly when both IDs are in the valid set (or the edge
    was already there); a row with an endpoint outside the set prints its
    skip line; and every edge the batch adds comes from a row whose two
    endpoints are valid. *)
Theorem insert_edge_iff_valid (valid_ids : gset jval) (account_details : gmap jval dict)
    (env : neo_env) (rows : list dict) (g : ugraph)
    (Hc : committed (insert_relationships_into_neo4j valid_ids account_details env rows g)) :
  let r := insert_relationships_into_neo4j valid_ids account_details env rows g in
  (forall row a b, row ∈ rows -> row !! "account_id" = Some a ->
     row !! "follower_account_id" = Some b ->
     ((a, b) ∈ followed_by (ins_graph r) <->
        (a, b) ∈ followed_by g \/ (a ∈ valid_ids /\ b ∈ valid_ids)) /\
     (~ (a ∈ valid_ids /\ b ∈ valid_ids) -> LSkip a b ∈ ins_out r)) /\
  (forall e, e ∈ followed_by (ins_graph r) -> e ∉ followed_by g ->
     exists row, row ∈ rows /\ row !! "account_id" = Some e.1 /\
       row !! "follower_account_id" = Some e.2 /\ e.1 ∈ valid_ids /\ e.2 ∈ valid_ids).
Proof.
  intros r. destruct (insert_committed_inv _ _ _ _ _ Hc) as (_ & _ & Ho).
  pose proof (insert_committed_out _ _ _ _ _ Hc) as Hout. fold r in Ho, Hout.
  split.
  - intros row a b Hin Ha Hb. split.
    + rewrite (tx_rows_edges _ _ _ _ _ _ _ (a, b) Ho). simpl. split.
      * intros [He|(row' & _ & _ & _ & Hav & Hbv)]; [by left|by right].
      * intros [He|[Hav Hbv]]; [by left|right]. by exists row.
    + intros Hv. rewrite Hout. apply elem_of_app. right. apply elem_of_app. left.
      by apply (tx_rows_skip_logged _ _ _ _ _ _ _ Ho row).
  - intros e He Hne. apply (tx_rows_edges _ _ _ _ _ _ _ e Ho) in He as [He|He]; [done|].
    exact He.
Qed.



Lemma insert_edge_iff_valid_witness :
  let env := mkNeoEnv None (fun _ => None) None in
  let rows := [project (mkFollowerRow (JStr "A") (JStr "B"));
               project (mkFollowerRow (JStr "B") (JStr "Z"))] in
  let valid := {[JStr "A"; JStr "B"; JStr "C"]} : gset jval in
  let r := insert_relationships_into_neo4j valid ∅ env rows (mkUGraph ∅ ∅) in
  committed r /\
  (forall row a b, row ∈ rows -> row !! "account_id" = Some a ->
     row !! "follower_account_id" = Some b ->
     ((a, b) ∈ followed_by (ins_graph r) <->
        (a, b) ∈ followed_by (mkUGraph ∅ ∅) \/ (a ∈ valid /\ b ∈ valid)) /\
     (~ (a ∈ valid /\ b ∈ valid) -> LSkip a b ∈ ins_out r)) /\
  (forall e, e ∈ followed_by (ins_graph r) -> e ∉ followed_by (mkUGraph ∅ ∅) ->
     exists row, row ∈ rows /\ row !! "account_id" = Some e.1 /\
       row !! "follower_account_id" = Some e.2 /\ e.1 ∈ valid /\ e.2 ∈ valid).
Proof.
  intros env rows valid r.
  assert (Hc : committed r).
  { split; [apply (bool_decide_unpack (CCommit ∈ ins_calls r))
           |apply (bool_decide_unpack (CRollback ∉ ins_calls r))]; vm_compute; exact I. }
  split; [exact Hc|].
  exact (insert_edge_iff_valid valid ∅ env rows (mkUGraph ∅ ∅) Hc).
Defined.



(* ------------------------------------------------------------------ *)
(** ** Endpoint properties after a committed batch *)

(** Each endpoint of a valid row ends with the five looked-up details as
    its descriptive properties and its other properties as before. *)
Lemma insert_endpoint_props (valid_ids : gset jval) (account_details : gmap jval dict)
    (env : neo_env) (rows : list dict) (g : ugraph)
    (Hc : committed (insert_relationships_into_neo4j valid_ids account_details env rows g))
    (row : dict) (a b x : jval) :
  row ∈ rows -> row !! "account_id" = Some a -> row !! "follower_account_id" = Some b ->
  a ∈ valid_ids -> b ∈ valid_ids -> x = a \/ x = b ->
  exists p,
    users (ins_graph (insert_relationships_into_neo4j valid_ids account_details env rows g))
      !! x = Some p /\
    (forall k, k ∈ descriptive_keys ->
       p !! k = jprop (dict_get (default ∅ (account_details !! x)) k)) /\
    (forall k, k ∉ descriptive_keys -> p !! k = default ∅ (users g !! x) !! k).
Proof.
  intros Hin Ha Hb Hav Hbv Hx.
  destruct (insert_committed_inv _ _ _ _ _ Hc) as (_ & _ & Ho).
  destruct (tx_rows_fixed _ _ _ _ _ _ _ Ho row a b Hin Ha Hb Hav Hbv) as (Hfa & Hfb & _).
  assert (Hfx : fixed_node account_details x
                  (ins_graph (insert_relationships_into_neo4j valid_ids account_details env rows g)))
    by (destruct Hx as [->| ->]; done).
  destruct Hfx as (p & Hp & Hfix). exists p. split; [done|]. split.
  - intros k Hk. rewrite <- Hfix. by apply endpoint_props_lookup.
  - intros k Hk. rewrite <- (tx_rows_frame _ _ _ _ _ _ _ x k Ho Hk), Hp. done.
Qed.



(** A committed batch stays committed with any other detail map. *)
Lemma insert_committed_indep (valid_ids : gset jval) (d d' : gmap jval dict)
    (env : neo_env) (rows : list dict) (g : ugraph) :
  committed (insert_relationships_into_neo4j valid_ids d env rows g) ->
  committed (insert_relationships_into_neo4j valid_ids d' env rows g).
Proof.
  intros Hc. destruct (insert_committed_inv _ _ _ _ _ Hc) as (Hs & Hcf & Ho).
  destruct (tx_rows_raised_indep valid_ids d d' env rows 0 g g) as [Hcalls Hr].
  rewrite Ho in Hr. unfold insert_relationships_into_neo4j, committed. rewrite Hs.
  destruct (tx_outcome (tx_rows valid_ids d' env rows 0 g)) as [w'|e'] eqn:Ho';
    [|discriminate]. rewrite Hcf. simpl.
  destruct (tx_calls_no_commit valid_ids d' env rows 0 g) as [_ Hnr].
  split; [set_solver|]. rewrite elem_of_app. intros [H|H]; [done|]. set_solver.
Qed.




(* ------------------------------------------------------------------ *)
(** ** Repeating a periodic-commit statement *)

Section PeriodicCommit.
Context {Row G : Type}.
Variable step : Row -> G -> option G.
Variable rel : G -> G -> Prop.
Context `{!PreOrder rel}.
Variable fixed : Row -> G -> Prop.
Hypothesis Hok : stage_ok step rel fixed.

Lemma run_chunk_fail (c : list Row) (g g' : G) :
  run_chunk step c g = None -> run_chunk step c g' = None.
Proof.
  revert g g'. induction c as [|r rest IH]; intros g g'; simpl; [discriminate|].
  destruct (step r g) as [g1|] eqn:Hs.
  - intros Hr. destruct (step r g') as [g1'|]; [|done]. by apply (IH g1).
  - intros _. by rewrite (stage_fail _ _ _ Hok r g g' Hs).
Qed.

Lemma run_chunk_rel (c : list Row) (g g' : G) :
  run_chunk step c g = Some g' -> rel g g'.
Proof.
  revert g. induction c as [|r rest IH]; intros g; simpl; [by intros [= ->]|].
  destruct (step r g) as [g1|] eqn:Hs; [|discriminate].
  intros Hr. etrans; [by apply (stage_rel _ _ _ Hok r)|]. by apply IH.
Qed.

Lemma run_chunk_fixed (c : list Row) (g g' : G) :
  run_chunk step c g = Some g' -> forall r, r ∈ c -> fixed r g'.
Proof.
  revert g. induction c as [|r0 rest IH]; intros g; simpl;
    [intros _ r Hr; by apply elem_of_nil in Hr|].
  destruct (step r0 g) as [g1|] eqn:Hs; [|discriminate].
  intros Hr r [->|Hin]%elem_of_cons; [|by apply (IH g1)].
  apply (stage_persist _ _ _ Hok r0 g1 g'); [by apply (run_chunk_rel rest)|].
  by apply (stage_fixed _ _ _ Hok r0 g).
Qed.

Lemma run_chunk_noop (c : list Row) (g : G) :
  (forall r, r ∈ c -> fixed r g) -> run_chunk step c g = Some g.
Proof.
  induction c as [|r rest IH]; intros Hall; simpl; [done|].
  rewrite (stage_noop _ _ _ Hok r g) by (apply Hall; by left).
  apply IH. intros r' Hr'. apply Hall. by right.
Qed.

Lemma run_chunks_rel (cs : list (list Row)) (g g' : G) (e : bool) :
  run_chunks step cs g = (g', e) -> rel g g'.
Proof.
  revert g. induction cs as [|c rest IH]; intros g; simpl; [by intros [= -> _]|].
  destruct (run_chunk step c g) as [g1|] eqn:Hc; [|by intros [= -> _]].
  intros Hr. etrans; [by apply (run_chunk_rel c)|]. by apply (IH g1).
Qed.

(** Run again on a graph that contains the result of the first run,
    the statement changes nothing and fails (or not) as before. *)
Lemma run_chunks_again (cs : list (list Row)) (g g' h : G) (e : bool) :
  run_chunks step cs g = (g', e) -> rel g' h -> run_chunks step cs h = (h, e).
Proof.
  revert g. induction cs as [|c rest IH]; intros g; simpl; [by intros [= -> <-]|].
  destruct (run_chunk step c g) as [g1|] eqn:Hc.
  - intros Hr Hh. rewrite run_chunk_noop; [by apply (IH g1)|].
    intros r Hin. apply (stage_persist _ _ _ Hok r g1 h).
    + etrans; [by apply (run_chunks_rel rest g1 g' e)|done].
    + by apply (run_chunk_fixed c g).
  - intros [= <- <-] Hh. by rewrite (run_chunk_fail c g h Hc).
Qed.

Lemma run_statement_rel (rows : list Row) (g g' : G) (e : bool) :
  run_statement step rows g = (g', e) -> rel g g'.
Proof. apply run_chunks_rel. Qed.

Lemma run_statement_again (rows : list Row) (g g' h : G) (e : bool) :
  run_statement step rows g = (g', e) -> rel g' h -> run_statement step rows h = (h, e).
Proof. apply run_chunks_again. Qed.
End PeriodicCommit.

(* ------------------------------------------------------------------ *)
(** ** The six LOAD CSV statements *)

Lemma merge_on_create_subseteq {K} `{Countable K} (k : K) (p : gmap string nval)
    (m : gmap K (gmap string nval)) :
  m ⊆ merge_on_create k p m.
Proof.
  unfold merge_on_create. destruct (m !! k) eqn:Hk; [done|]. by apply insert_subseteq.
Qed.

Lemma merge_on_create_is_Some {K} `{Countable K} (k : K) (p : gmap string nval)
    (m : gmap K (gmap string nval)) :
  is_Some (merge_on_create k p m !! k).
Proof.
  unfold merge_on_create. destruct (m !! k) eqn:Hk; [by rewrite Hk|].
  by rewrite lookup_insert_eq.
Qed.

Lemma merge_on_create_noop {K} `{Countable K} (k : K) (p : gmap string nval)
    (m : gmap K (gmap string nval)) :
  is_Some (m !! k) -> merge_on_create k p m = m.
Proof. intros [q Hk]. unfold merge_on_create. by rewrite Hk. Qed.

Lemma merge_edge_subseteq {A B} `{Countable A} `{Countable B}
    (a : option A) (b : option B) (s : gset (A * B)) :
  s ⊆ merge_edge a b s.
Proof. destruct a, b; simpl; set_solver. Qed.

Lemma merge_edge_in {A B} `{Countable A} `{Countable B} (x : A) (y : B) (s : gset (A * B)) :
  (x, y) ∈ merge_edge (Some x) (Some y) s.
Proof. simpl. set_solver. Qed.

Lemma merge_edge_noop {A B} `{Countable A} `{Countable B}
    (a : option A) (b : option B) (s : gset (A * B)) :
  (forall x y, a = Some x -> b = Some y -> (x, y) ∈ s) -> merge_edge a b s = s.
Proof.
  intros Hin. destruct a as [x|], b as [y|]; simpl; try done.
  apply leibniz_equiv. specialize (Hin x y eq_refl eq_refl). set_solver.
Qed.

#[global] Instance bsub_preorder : PreOrder bsub.
Proof.
  split.
  - intros g. unfold bsub. split_and!; done.
  - intros g1 g2 g3 (H1 & H2 & H3 & H4 & H5 & H6 & H7) (H1' & H2' & H3' & H4' & H5' & H6' & H7').
    split_and!; by etrans.
Qed.

#[global] Instance bsub_acc_preorder : PreOrder bsub_acc.
Proof.
  split.
  - intros g. split; [done|done].
  - intros g1 g2 g3 [H1 E1] [H2 E2]. split; [by etrans|congruence].
Qed.

#[global] Instance bsub_tw_preorder : PreOrder bsub_tw.
Proof.
  split.
  - intros g. split; [done|done].
  - intros g1 g2 g3 [H1 E1] [H2 E2]. split; [by etrans|congruence].
Qed.

Lemma bsub_acc_bsub (g g' : bgraph) : bsub_acc g g' -> bsub g g'.
Proof. by intros [? _]. Qed.

Lemma bsub_tw_acc (g g' : bgraph) : bsub_tw g g' -> bsub_acc g g'.
Proof. by intros [? _]. Qed.

Lemma account_ok (to_integer : string -> option Z) :
  stage_ok (load_account to_integer) bsub account_fixed.
Proof.
  split; unfold load_account.
  - intros r g g'. by destruct (r !! "account_id").
  - intros r g g'. destruct (r !! "account_id"); [|discriminate]. intros [= <-].
    unfold bsub; simpl. split_and!; try done. apply merge_on_create_subseteq.
  - intros r g g'. destruct (r !! "account_id") as [k|] eqn:Hk; [|discriminate].
    intros [= <-]. exists k. split; [done|]. apply merge_on_create_is_Some.
  - intros r g (k & Hk & Hs). rewrite Hk. cbv zeta.
    rewrite merge_on_create_noop by done. by destruct g.
  - intros r g g' Hg (k & Hk & Hs). exists k. split; [done|].
    destruct Hg as (Ha & _). by apply (lookup_weaken_is_Some (accounts g)).
Qed.

Lemma tweet_ok (to_integer : string -> option Z) :
  stage_ok (load_tweet to_integer) bsub_acc tweet_fixed.
Proof.
  split; unfold load_tweet.
  - intros r g g'. by destruct (r !! "tweet_id").
  - intros r g g'. destruct (r !! "tweet_id"); [|discriminate]. intros [= <-].
    unfold bsub_acc, bsub; simpl. split; [|done]. split_and!; try done.
    + apply merge_on_create_subseteq.
    + apply merge_edge_subseteq.
  - intros r g g'. destruct (r !! "tweet_id") as [t|] eqn:Ht; [|discriminate].
    intros [= <-]. exists t. simpl. split; [done|]. split; [apply merge_on_create_is_Some|].
    intros a Ha. rewrite Ha. apply merge_edge_in.
  - intros r g (t & Ht & Hs & Hall). rewrite Ht. cbv zeta.
    rewrite merge_on_create_noop by done. rewrite merge_edge_noop; [by destruct g|].
    intros x y Hx [= <-]. by apply Hall.
  - intros r g g' [(Ha & Ht & _ & Htw & _) Hacc] (t & Hr & Hs & Hall). exists t.
    split; [done|]. split; [by apply (lookup_weaken_is_Some (tweets g))|].
    intros a. rewrite Hacc. intros Hm. apply Htw. by apply Hall.
Qed.

Lemma follower_ok : stage_ok load_follower bsub_acc follower_fixed.
Proof.
  split; unfold load_follower.
  - intros r g g'. discriminate.
  - intros r g g' [= <-]. unfold bsub_acc, bsub; simpl. split; [|done].
    split_and!; try done. apply merge_edge_subseteq.
  - intros r g g' [= <-] a b Ha Hb. simpl in *. rewrite Ha, Hb. apply merge_edge_in.
  - intros r g Hall. rewrite merge_edge_noop; [by destruct g|].
    intros x y Hx Hy. by apply Hall.
  - intros r g g' [(_ & _ & _ & _ & Hf & _) Hacc] Hall a b. rewrite Hacc.
    intros Ha Hb. apply Hf. by apply Hall.
Qed.

Lemma following_ok : stage_ok load_following bsub_acc following_fixed.
Proof.
  split; unfold load_following.
  - intros r g g'. discriminate.
  - intros r g g' [= <-]. unfold bsub_acc, bsub; simpl. split; [|done].
    split_and!; try done. apply merge_edge_subseteq.
  - intros r g g' [= <-] a b Ha Hb. simpl in *. rewrite Ha, Hb. apply merge_edge_in.
  - intros r g Hall. rewrite merge_edge_noop; [by destruct g|].
    intros x y Hx Hy. by apply Hall.
  - intros r g g' [(_ & _ & _ & _ & Hf & _) Hacc] Hall a b. rewrite Hacc.
    intros Ha Hb. apply Hf. by apply Hall.
Qed.

Lemma like_ok : stage_ok load_like bsub_tw like_fixed.
Proof.
  split; unfold load_like.
  - intros r g g'. discriminate.
  - intros r g g' [= <-]. unfold bsub_tw, bsub_acc, bsub; simpl. split; [|done].
    split; [|done]. split_and!; try done. apply merge_edge_subseteq.
  - intros r g g' [= <-] a t Ha Ht. simpl in *. rewrite Ha, Ht. apply merge_edge_in.
  - intros r g Hall. rewrite merge_edge_noop; [by destruct g|].
    intros x y Hx Hy. by apply Hall.
  - intros r g g' [[(_ & _ & _ & _ & _ & Hl & _) Hacc] Htw] Hall a t. rewrite Hacc, Htw.
    intros Ha Ht. apply Hl. by apply Hall.
Qed.

Lemma media_ok (to_integer : string -> option Z) :
  stage_ok (load_media to_integer) bsub_tw (media_fixed to_integer).
Proof.
  split; unfold load_media.
  - intros r g g'. by destruct (r !! "media_id" ≫= to_integer).
  - intros r g g'. destruct (r !! "media_id" ≫= to_integer); [|discriminate]. intros [= <-].
    unfold bsub_tw, bsub_acc, bsub; simpl. split; [|done]. split; [|done].
    split_and!; try done.
    + apply merge_on_create_subseteq.
    + apply merge_edge_subseteq.
  - intros r g g'. destruct (r !! "media_id" ≫= to_integer) as [m|] eqn:Hm; [|discriminate].
    intros [= <-]. exists m. simpl. split; [done|]. split; [apply merge_on_create_is_Some|].
    intros t Ht. rewrite Ht. apply merge_edge_in.
  - intros r g (m & Hm & Hs & Hall). rewrite Hm. cbv zeta.
    rewrite merge_on_create_noop by done. rewrite merge_edge_noop; [by destruct g|].
    intros x y Hx [= <-]. by apply Hall.
  - intros r g g' [[(_ & _ & Hme & _ & _ & _ & Hhm) _] Htw] (m & Hr & Hs & Hall). exists m.
    split; [done|]. split; [by apply (lookup_weaken_is_Some (media g))|].
    intros t. rewrite Htw. intros Ht. apply Hhm. by apply Hall.
Qed.

Lemma account_stage_rel (to_integer : string -> option Z) (rows : list csvrow)
    (g g' : bgraph) (e : bool) :
  run_statement (load_account to_integer) rows g = (g', e) -> bsub g g'.
Proof. exact (run_statement_rel _ _ _ (account_ok to_integer) rows g g' e). Qed.
Lemma tweet_stage_rel (to_integer : string -> option Z) (rows : list csvrow)
    (g g' : bgraph) (e : bool) :
  run_statement (load_tweet to_integer) rows g = (g', e) -> bsub_acc g g'.
Proof. exact (run_statement_rel _ _ _ (tweet_ok to_integer) rows g g' e). Qed.
Lemma follower_stage_rel (rows : list csvrow) (g g' : bgraph) (e : bool) :
  run_statement load_follower rows g = (g', e) -> bsub_acc g g'.
Proof. exact (run_statement_rel _ _ _ follower_ok rows g g' e). Qed.
Lemma following_stage_rel (rows : list csvrow) (g g' : bgraph) (e : bool) :
  run_statement load_following rows g = (g', e) -> bsub_acc g g'.
Proof. exact (run_statement_rel _ _ _ following_ok rows g g' e). Qed.
Lemma like_stage_rel (rows : list csvrow) (g g' : bgraph) (e : bool) :
  run_statement load_like rows g = (g', e) -> bsub_tw g g'.
Proof. exact (run_statement_rel _ _ _ like_ok rows g g' e). Qed.
Lemma media_stage_rel (to_integer : string -> option Z) (rows : list csvrow)
    (g g' : bgraph) (e : bool) :
  run_statement (load_media to_integer) rows g = (g', e) -> bsub_tw g g'.
Proof. exact (run_statement_rel _ _ _ (media_ok to_integer) rows g g' e). Qed.

Create HintDb bulk_rel.
#[local] Hint Resolve bsub_acc_bsub bsub_tw_acc account_stage_rel tweet_stage_rel
  follower_stage_rel following_stage_rel like_stage_rel media_stage_rel : bulk_rel.

(** [rel x z] along the statements run from [x] to [z]. *)
Ltac bulk_chain :=
  first [ reflexivity
        | match goal with
          | H : run_statement _ _ ?x = (?y, _) |- _ ?x ?z =>
              transitivity y; [eauto with bulk_rel|bulk_chain]
          end ].

(** Take apart a run of the load: one case per statement that fails, and
    one where none does. *)
Ltac bulk_cases Hl :=
  lazymatch type of Hl with
  | context [run_statement ?st ?rows ?g] =>
      let gx := fresh "g" in let Hx := fresh "Hst" in
      destruct (run_statement st rows g) as [gx []] eqn:Hx; simpl in Hl;
      [injection Hl as <- <- | bulk_cases Hl]
  | _ => injection Hl as <- <-
  end.

(** Re-run a statement over a graph that contains its first result. *)
Ltac bulk_again :=
  match goal with
  | H : run_statement ?st ?rows _ = _ |- context [run_statement ?st ?rows ?h] =>
      first [ rewrite (run_statement_again _ _ _ (account_ok _) rows _ _ h _ H)
            | rewrite (run_statement_again _ _ _ (tweet_ok _) rows _ _ h _ H)
            | rewrite (run_statement_again _ _ _ follower_ok rows _ _ h _ H)
            | rewrite (run_statement_again _ _ _ following_ok rows _ _ h _ H)
            | rewrite (run_statement_again _ _ _ like_ok rows _ _ h _ H)
            | rewrite (run_statement_again _ _ _ (media_ok _) rows _ _ h _ H) ];
      [simpl|bulk_chain]
  end.

#[local] Arguments run_statement : simpl never.

Lemma load_data_bsub (to_integer : string -> option Z) (csv : csv_files) (g : bgraph) :
  bsub g (snd (load_data_into_neo4j to_integer csv g)).
Proof.
  destruct (load_data_into_neo4j to_integer csv g) as [o g1] eqn:Hl. simpl.
  unfold load_data_into_neo4j in Hl. bulk_cases Hl; bulk_chain.
Qed.

Lemma load_data_again (to_integer : string -> option Z) (csv : csv_files) (g : bgraph) :
  load_data_into_neo4j to_integer csv (snd (load_data_into_neo4j to_integer csv g)) =
    load_data_into_neo4j to_integer csv g.
Proof.
  destruct (load_data_into_neo4j to_integer csv g) as [o g1] eqn:Hl. simpl.
  unfold load_data_into_neo4j in Hl. unfold load_data_into_neo4j.
  bulk_cases Hl; repeat bulk_again; reflexivity.
Qed.

(** Running the batch again over the graph a committed batch left. *)
Lemma insert_again (valid_ids : gset jval) (account_details : gmap jval dict)
    (env env' : neo_env) (rows : list dict) (g : ugraph) :
  committed (insert_relationships_into_neo4j valid_ids account_details env rows g) ->
  let g1 := ins_graph (insert_relationships_into_neo4j valid_ids account_details env rows g) in
  ins_graph (insert_relationships_into_neo4j valid_ids account_details env' rows g1) = g1.
Proof.
  intros Hc g1. destruct (insert_committed_inv _ _ _ _ _ Hc) as (_ & _ & Ho). fold g1 in Ho.
  pose proof (tx_rows_fixed _ _ _ _ _ _ _ Ho) as Hfix.
  unfold insert_relationships_into_neo4j at 1.
  destruct (schema_fail env'); [done|].
  destruct (tx_rows_noop valid_ids account_details env' rows 0 g1 Hfix) as [Hr|[e Hr]];
    rewrite Hr; [|done].
  by destruct (commit_fail env').
Qed.

(** C6: running the same load again over the graph the first run left
    changes nothing.  For the bulk load, the second run leaves the same
    [:Account], [:Tweet] and [:Media] nodes with the same properties and
    the same relationships, and ends the same way (the same statement
    fails, or none).  For the per-row batch, the second run with the same
    Neo4j behaviour leaves the same [:User] nodes and [FOLLOWED_BY]
    edges; once a batch has committed, running it again leaves them even
    if Neo4j fails this time. *)
Theorem loads_idempotent (to_integer : string -> option Z) (csv : csv_files) (gb : bgraph)
    (valid_ids : gset jval) (account_details : gmap jval dict) (env : neo_env)
    (rows : list dict) (g : ugraph) :
  load_data_into_neo4j to_integer csv (snd (load_data_into_neo4j to_integer csv gb)) =
    load_data_into_neo4j to_integer csv gb /\
  (let g1 := ins_graph (insert_relationships_into_neo4j valid_ids account_details env rows g) in
   ins_graph (insert_relationships_into_neo4j valid_ids account_details env rows g1) = g1) /\
  (committed (insert_relationships_into_neo4j valid_ids account_details env rows g) ->
   forall env',
   let g1 := ins_graph (insert_relationships_into_neo4j valid_ids account_details env rows g) in
   ins_graph (insert_relationships_into_neo4j valid_ids account_details env' rows g1) = g1).
Proof.
  split; [apply load_data_again|]. split.
  - cbv zeta. destruct (schema_fail env) eqn:Hs.
    + unfold insert_relationships_into_neo4j at 2 3. rewrite Hs. simpl.
      unfold insert_relationships_into_neo4j. rewrite Hs. done.
    + destruct (tx_outcome (tx_rows valid_ids account_details env rows 0 g)) as [w|e] eqn:Ho.
      * destruct (commit_fail env) eqn:Hcf.
        -- assert (Hg : ins_graph (insert_relationships_into_neo4j valid_ids account_details
                          env rows g) = g).
           { unfold insert_relationships_into_neo4j. by rewrite Hs, Ho, Hcf. }
           by rewrite !Hg.
        -- apply insert_again. unfold insert_relationships_into_neo4j, committed.
           rewrite Hs, Ho, Hcf. simpl.
           destruct (tx_calls_no_commit valid_ids account_details env rows 0 g) as [_ Hnr].
           split; [set_solver|]. rewrite elem_of_app. intros [H|H]; [done|]. set_solver.
      * assert (Hg : ins_graph (insert_relationships_into_neo4j valid_ids account_details
                        env rows g) = g).
        { unfold insert_relationships_into_neo4j. by rewrite Hs, Ho. }
        by rewrite !Hg.
  - intros Hc env'. by apply insert_again.
Qed.

(** C9: the two loaders differ in what they do to a node that is already
    there.  The bulk load sets properties only when it creates a node: an
    [:Account], [:Tweet] or [:Media] node present before the load keeps
    every property as it was.  A committed per-row batch sets the five
    descriptive properties of both endpoints of every valid row to the
    looked-up details, whatever they were before (a null detail removes
    the property), and leaves every other property of the node as it
    was; the key [id] is the node's key in [users]. *)
Theorem loaders_frame (valid_ids : gset jval) (account_details : gmap jval dict)
    (env : neo_env) (rows : list dict) (g : ugraph)
    (Hc : committed (insert_relationships_into_neo4j valid_ids account_details env rows g)) :
  (forall to_integer csv gb,
     let gb' := snd (load_data_into_neo4j to_integer csv gb) in
     (forall k p, accounts gb !! k = Some p -> accounts gb' !! k = Some p) /\
     (forall k p, tweets gb !! k = Some p -> tweets gb' !! k = Some p) /\
     (forall k p, media gb !! k = Some p -> media gb' !! k = Some p)) /\
  (forall row a b x, row ∈ rows -> row !! "account_id" = Some a ->
     row !! "follower_account_id" = Some b -> a ∈ valid_ids -> b ∈ valid_ids ->
     x = a \/ x = b ->
     exists p,
       users (ins_graph (insert_relationships_into_neo4j valid_ids account_details env rows g))
         !! x = Some p /\
       (forall k, k ∈ descriptive_keys ->
          p !! k = jprop (dict_get (default ∅ (account_details !! x)) k)) /\
       (forall k, k ∉ descriptive_keys -> p !! k = default ∅ (users g !! x) !! k)).
Proof.
  split.
  - intros to_integer csv gb gb'.
    destruct (load_data_bsub to_integer csv gb) as (Ha & Ht & Hm & _).
    split_and!; intros k p Hk; by eapply lookup_weaken.
  - intros row a b x. by apply insert_endpoint_props.
Qed.

Lemma loaders_frame_witness :
  let d := {[ JStr "A" := details_entry (JStr "alice") (JStr "Alice") ∅ ]} in
  let env := mkNeoEnv None (fun _ => None) None in
  let rows := [project (mkFollowerRow (JStr "A") (JStr "B"))] in
  let g := mkUGraph {[ JStr "A" := {[ "username" := JStr "old"; "note" := JStr "kept" ]} ]} ∅ in
  committed (insert_relationships_into_neo4j {[JStr "A"; JStr "B"]} d env rows g) /\
  ((forall to_integer csv gb,
     let gb' := snd (load_data_into_neo4j to_integer csv gb) in
     (forall k p, accounts gb !! k = Some p -> accounts gb' !! k = Some p) /\
     (forall k p, tweets gb !! k = Some p -> tweets gb' !! k = Some p) /\
     (forall k p, media gb !! k = Some p -> media gb' !! k = Some p)) /\
   (forall row a b x, row ∈ rows -> row !! "account_id" = Some a ->
     row !! "follower_account_id" = Some b ->
     a ∈ ({[JStr "A"; JStr "B"]} : gset jval) -> b ∈ ({[JStr "A"; JStr "B"]} : gset jval) ->
     x = a \/ x = b ->
     exists p,
       users (ins_graph (insert_relationships_into_neo4j {[JStr "A"; JStr "B"]} d env rows g))
         !! x = Some p /\
       (forall k, k ∈ descriptive_keys -> p !! k = jprop (dict_get (default ∅ (d !! x)) k)) /\
       (forall k, k ∉ descriptive_keys -> p !! k = default ∅ (users g !! x) !! k))).
Proof.
  intros d env rows g.
  assert (Hc : committed (insert_relationships_into_neo4j {[JStr "A"; JStr "B"]} d env rows g)).
  { split; [apply (bool_decide_unpack (CCommit ∈ _))
           |apply (bool_decide_unpack (CRollback ∉ _))]; vm_compute; exact I. }
  split; [exact Hc|].
  exact (loaders_frame {[JStr "A"; JStr "B"]} d env rows g Hc).
Defined.

(* ------------------------------------------------------------------ *)
(** ** The account-detail map *)

Lemma build_details_spec (rows : list detail_row) (acc : gmap jval dict) :
  (forall row, row ∈ rows ->
     is_Some (dr_fields row !! "account_id") /\ is_Some (dr_fields row !! "username") /\
     is_Some (dr_fields row !! "account_display_name")) ->
  exists d, build_details rows acc = ([], Ret d) /\
    (forall x, (forall row, row ∈ rows -> dr_fields row !! "account_id" <> Some x) ->
       d !! x = acc !! x) /\
    (forall i row x u dn, rows !! i = Some row -> dr_fields row !! "account_id" = Some x ->
       dr_fields row !! "username" = Some u -> dr_fields row !! "account_display_name" = Some dn ->
       (forall j row', i < j -> rows !! j = Some row' -> dr_fields row' !! "account_id" <> Some x) ->
       d !! x = Some (details_entry u dn (match dr_all_profile row with Some p => p | None => ∅ end))).
Proof.
  revert acc. induction rows as [|row rest IH]; intros acc Hall.
  - exists acc. split; [done|]. split; [done|]. intros i row x u dn Hi. by rewrite lookup_nil in Hi.
  - destruct (Hall row ltac:(by left)) as ([x0 Hx0] & [u0 Hu0] & [d0 Hd0]).
    set (e0 := details_entry u0 d0 (match dr_all_profile row with Some p => p | None => ∅ end)).
    destruct (IH (<[x0 := e0]> acc)) as (d & Hb & Hout & Hin).
    { intros r Hr. apply Hall. by right. }
    exists d. split.
    { simpl. unfold getitem. rewrite Hx0, Hu0, Hd0. simpl. unfold e0 in Hb. rewrite Hb. done. }
    split.
    + intros x Hx. rewrite Hout.
      * rewrite lookup_insert_ne; [done|]. intros ->. apply (Hx row); [by left|done].
      * intros r Hr. apply Hx. by right.
    + intros [|i] r x u dn Hi Hx Hu Hd Hlast.
      * simpl in Hi. injection Hi as <-. rewrite Hout.
        -- assert (x0 = x) as -> by congruence. rewrite lookup_insert_eq. f_equal.
           unfold e0. congruence.
        -- intros r' Hr'. apply list_elem_of_lookup in Hr' as [j Hj].
           apply (Hlast (S j)); [lia|done].
      * simpl in Hi. apply (Hin i r x u dn Hi Hx Hu Hd).
        intros j r' Hj Hr'. apply (Hlast (S j)); [lia|done].
Qed.

(** The account-detail fetch on a result whose rows all carry the three
    keys: one entry per [account_id], the last row with that ID wins,
    and a null or missing [all_profile] gives null profile fields. *)
Theorem fetch_account_details_result (rows : list detail_row)
    (Hall : forall row, row ∈ rows ->
       is_Some (dr_fields row !! "account_id") /\ is_Some (dr_fields row !! "username") /\
       is_Some (dr_fields row !! "account_display_name")) :
  exists d, fetch_account_details (Data rows) = ([LDetails (size d)], Ret d) /\
    (forall x, is_Some (d !! x) <-> exists row, row ∈ rows /\ dr_fields row !! "account_id" = Some x) /\
    (forall i row x u dn, rows !! i = Some row -> dr_fields row !! "account_id" = Some x ->
       dr_fields row !! "username" = Some u -> dr_fields row !! "account_display_name" = Some dn ->
       (forall j row', i < j -> rows !! j = Some row' -> dr_fields row' !! "account_id" <> Some x) ->
       d !! x = Some (details_entry u dn (match dr_all_profile row with Some p => p | None => ∅ end))).
Proof.
  destruct (build_details_spec rows ∅ Hall) as (d & Hb & Hout & Hin).
  exists d. split.
  { unfold fetch_account_details. simpl. rewrite Hb. done. }
  split; [|done].
  intros x. split.
  - intros Hs. destruct (decide (Exists (fun row => dr_fields row !! "account_id" = Some x) rows))
      as [He|Hn]; [by apply Exists_exists in He|].
    rewrite Hout in Hs; [by rewrite lookup_empty in Hs|]. intros row Hr Hx. apply Hn.
    apply Exists_exists. eauto.
  - intros (row & Hr & Hx).
    (* the last row with this ID *)
    assert (exists i r, rows !! i = Some r /\ dr_fields r !! "account_id" = Some x /\
              forall j r', i < j -> rows !! j = Some r' -> dr_fields r' !! "account_id" <> Some x)
      as (i & r & Hi & Hxi & Hlast).
    { clear Hb Hout Hin Hall.
      induction rows as [|r0 rest IHr] using rev_ind; [by apply elem_of_nil in Hr|].
      destruct (decide (dr_fields r0 !! "account_id" = Some x)) as [H0|H0].
      - exists (length rest), r0. split; [by rewrite lookup_app_r, Nat.sub_diag by lia|].
        split; [done|]. intros j r' Hj Hr'. apply lookup_lt_Some in Hr'.
        rewrite length_app in Hr'. simpl in Hr'. lia.
      - apply elem_of_app in Hr as [Hr|Hr%list_elem_of_singleton]; [|by subst].
        destruct (IHr Hr) as (i & r & Hi & Hxi & Hlast). exists i, r.
        split; [by apply lookup_app_l_Some|]. split; [done|].
        intros j r' Hj Hr'. destruct (decide (j < length rest)).
        + rewrite lookup_app_l in Hr' by done. by apply (Hlast j).
        + rewrite lookup_app_r in Hr' by lia. destruct (j - length rest) as [|k] eqn:E.
          * simpl in Hr'. by injection Hr' as <-.
          * simpl in Hr'. rewrite lookup_nil in Hr'. discriminate. }
    destruct (Hall r ltac:(by eapply list_elem_of_lookup_2)) as (_ & [u Hu] & [dn Hdn]).
    rewrite (Hin i r x u dn Hi Hxi Hu Hdn Hlast). eauto.
Qed.

Lemma build_details_keyerror (rows : list detail_row) (acc : gmap jval dict)
    (i : nat) (row : detail_row) :
  rows !! i = Some row ->
  ~ (is_Some (dr_fields row !! "account_id") /\ is_Some (dr_fields row !! "username") /\
     is_Some (dr_fields row !! "account_display_name")) ->
  (forall j r, j < i -> rows !! j = Some r ->
     is_Some (dr_fields r !! "account_id") /\ is_Some (dr_fields r !! "username") /\
     is_Some (dr_fields r !! "account_display_name")) ->
  exists k, build_details rows acc = ([], Raise (KeyError k)) /\
    k ∈ ["account_id"; "username"; "account_display_name"] /\ dr_fields row !! k = None.
Proof.
  revert acc i. induction rows as [|r0 rest IH]; intros acc i Hi Hmiss Hbefore;
    [by rewrite lookup_nil in Hi|].
  destruct i as [|i].
  - simpl in Hi. injection Hi as <-. simpl. unfold getitem.
    destruct (dr_fields r0 !! "account_id") as [x|] eqn:Hx;
      [|exists "account_id"; split; [done|]; split; [set_solver|done]].
    destruct (dr_fields r0 !! "username") as [u|] eqn:Hu;
      [|exists "username"; split; [done|]; split; [set_solver|done]].
    destruct (dr_fields r0 !! "account_display_name") as [dn|] eqn:Hd;
      [|exists "account_display_name"; split; [done|]; split; [set_solver|done]].
    exfalso. apply Hmiss. eauto.
  - destruct (Hbefore 0 r0 ltac:(lia) eq_refl) as ([x Hx] & [u Hu] & [dn Hd]).
    simpl. unfold getitem. rewrite Hx, Hu, Hd. simpl.
    destruct (IH (<[x := details_entry u dn (match dr_all_profile r0 with Some p => p | None => ∅ end)]> acc) i Hi Hmiss)
      as (k & Hk & Hkin & Hkn).
    { intros j r Hj Hr. apply (Hbefore (S j)); [lia|done]. }
    rewrite Hk. eauto.
Qed.

(** A result row lacking [account_id], [username] or
    [account_display_name] makes the account-detail fetch raise a
    [KeyError] naming a key that the first such row lacks; it is not
    wrapped in a [RuntimeError] (only the query itself is guarded), and
    nothing is printed. *)
Theorem fetch_account_details_keyerror (rows : list detail_row) (i : nat) (row : detail_row)
    (Hi : rows !! i = Some row)
    (Hmiss : ~ (is_Some (dr_fields row !! "account_id") /\ is_Some (dr_fields row !! "username") /\
                is_Some (dr_fields row !! "account_display_name")))
    (Hbefore : forall j r, j < i -> rows !! j = Some r ->
       is_Some (dr_fields r !! "account_id") /\ is_Some (dr_fields r !! "username") /\
       is_Some (dr_fields r !! "account_display_name")) :
  exists k, fetch_account_details (Data rows) = ([], Raise (KeyError k)) /\
    k ∈ ["account_id"; "username"; "account_display_name"] /\ dr_fields row !! k = None.
Proof.
  destruct (build_details_keyerror rows ∅ i row Hi Hmiss Hbefore) as (k & Hk & Hkin & Hkn).
  exists k. split; [|done]. unfold fetch_account_details. simpl. by rewrite Hk.
Qed.

Lemma fetch_account_details_keyerror_witness :
  let row := mkDetailRow {[ "account_id" := JStr "A" ]} None in
  exists k, fetch_account_details (Data [row]) = ([], Raise (KeyError k)) /\
    k ∈ ["account_id"; "username"; "account_display_name"] /\ dr_fields row !! k = None.
Proof.
  intros row. apply (fetch_account_details_keyerror [row] 0 row); [done| |].
  - intros (_ & Hu & _). vm_compute in Hu. by destruct Hu.
  - intros j r Hj. lia.
Defined.

Lemma fetch_account_details_result_witness :
  let rows := [mkDetailRow (<["account_id" := JStr "A"]> (<["username" := JStr "a"]>
                 (<["account_display_name" := JStr "Ann"]> ∅))) None] in
  exists d, fetch_account_details (Data rows) = ([LDetails (size d)], Ret d) /\
    (forall x, is_Some (d !! x) <-> exists row, row ∈ rows /\ dr_fields row !! "account_id" = Some x) /\
    (forall i row x u dn, rows !! i = Some row -> dr_fields row !! "account_id" = Some x ->
       dr_fields row !! "username" = Some u -> dr_fields row !! "account_display_name" = Some dn ->
       (forall j row', i < j -> rows !! j = Some row' -> dr_fields row' !! "account_id" <> Some x) ->
       d !! x = Some (details_entry u dn (match dr_all_profile row with Some p => p | None => ∅ end))).
Proof.
  intros rows. apply fetch_account_details_result.
  intros row Hr. apply list_elem_of_singleton in Hr as ->. vm_compute. split_and!; eexists; done.
Defined.

(* ------------------------------------------------------------------ *)
(** ** What the follower fetch prints, and an API error mid-way *)

Lemma page_of_project (table : list follower_row) (values : list string)
    (order : nat -> list follower_row -> list follower_row) (k : nat) :
  page_of table values order k =
    map project (take page_size (drop (k * page_size)
      (filter (fun r => in_filter values (f_account_id r) = true /\
                        in_filter values (f_follower_account_id r) = true) (order k table)))).
Proof. unfold page_of, full_query. by rewrite skipn_map, firstn_map. Qed.

(** Without API errors the follower fetch prints one "Fetched page" line
    per full page (page numbers from 1, each with 1000 rows), then the
    total, the "First 5 relationships found:" header and the first five
    relationships numbered from 1.  It returns the pages one after the
    other, each cut from the order of its own request; their total length
    is the size of the filtered result whatever the orders. *)
Theorem follower_fetch_log (valid_ids : gset jval) (table : list follower_row)
    (order : nat -> list follower_row -> list follower_row)
    (Hperm : forall k, Permutation (order k table) table) :
  let values := map py_str (elements valid_ids) in
  let sel := fun t : list follower_row =>
    filter (fun r => in_filter values (f_account_id r) = true /\
                     in_filter values (f_follower_account_id r) = true) t in
  let n := length (sel table) in
  let rows := concat (map (fun k => take page_size (drop (k * page_size) (sel (order k table))))
                          (seq 0 (S (n / page_size)))) in
  length rows = n /\
  fetch_follower_relationships valid_ids table order (fun _ => None) =
    (map (fun j => LPage (S j) page_size) (seq 0 (n / page_size)) ++
     [LTotal n; LFirstHeader] ++
     zip_with (fun i r => LFirst i (f_account_id r) (f_follower_account_id r))
       (seq 1 (length (take 5 rows))) (take 5 rows),
     Ret (map project rows)).
Proof.
  intros values sel n rows.
  assert (Hn : length (full_query table values) = n)
    by (unfold full_query; rewrite length_map; done).
  assert (Hlen : forall k, length (full_query (order k table) values) = n)
    by (intros k; rewrite <- Hn; apply full_query_perm_length, Hperm).
  assert (Hrows : concat (map (page_of table values order) (seq 0 (S (n / page_size)))) =
                  map project rows).
  { unfold rows. rewrite concat_map, map_map. f_equal. apply map_ext. intros k.
    apply page_of_project. }
  pose proof (full_query_length table values) as Hle.
  pose proof (Nat.div_mod_eq n page_size) as Hdm.
  pose proof (Nat.mod_upper_bound n page_size ltac:(unfold page_size; lia)) as Hmod.
  assert (Hlr : length rows = n).
  { rewrite <- (length_map project rows), <- Hrows.
    rewrite (concat_pages_length table values order n Hlen); unfold page_size in *; lia. }
  split; [exact Hlr|].
  unfold fetch_follower_relationships. fold values.
  rewrite (page_loop_log table values order n Hlen (S (length table)) 0 []);
    [|lia|unfold page_size in *; lia].
  rewrite Nat.sub_0_r, Nat.sub_0_r, app_nil_l, Hrows.
  cbn [mbind mprint mret]. rewrite length_map, Hlr, firstn_map, print_first_lines.
  cbn [mbind mret wrap_api_error]. rewrite !app_nil_r. done.
Qed.

Lemma follower_fetch_log_witness :
  let table := [mkFollowerRow (JStr "A") (JStr "B"); mkFollowerRow (JStr "B") (JStr "Z");
                mkFollowerRow (JStr "B") (JStr "A")] in
  let order := fun k (t : list follower_row) => if Nat.even k then t else rev t in
  (forall k, Permutation (order k table) table) /\
  (let values := map py_str (elements ({[JStr "A"; JStr "B"]} : gset jval)) in
   let sel := fun t : list follower_row =>
     filter (fun r => in_filter values (f_account_id r) = true /\
                      in_filter values (f_follower_account_id r) = true) t in
   let n := length (sel table) in
   let rows := concat (map (fun k => take page_size (drop (k * page_size) (sel (order k table))))
                           (seq 0 (S (n / page_size)))) in
   length rows = n /\
   fetch_follower_relationships {[JStr "A"; JStr "B"]} table order (fun _ => None) =
     (map (fun j => LPage (S j) page_size) (seq 0 (n / page_size)) ++
      [LTotal n; LFirstHeader] ++
      zip_with (fun i r => LFirst i (f_account_id r) (f_follower_account_id r))
        (seq 1 (length (take 5 rows))) (take 5 rows),
      Ret (map project rows))).
Proof.
  intros table order.
  assert (Hp : forall k, Permutation (order k table) table).
  { intros k. unfold order. destruct (Nat.even k); [reflexivity|].
    apply Permutation_sym, Permutation_rev. }
  split; [exact Hp|].
  exact (follower_fetch_log {[JStr "A"; JStr "B"]} table order Hp).
Defined.

(** An API error on the request for page [k] (0-based), the earlier
    requests having succeeded, makes the follower fetch raise the
    [RuntimeError] wrapping it; the relationships of the earlier pages are
    dropped, and the only lines printed are the "Fetched page" lines of
    the [k] full pages before it. *)
Theorem follower_fetch_error (valid_ids : gset jval) (table : list follower_row)
    (order : nat -> list follower_row -> list follower_row)
    (api_fail : nat -> option string) (k : nat) (msg : string)
    (Hperm : forall j, Permutation (order j table) table)
    (Hk : k * page_size <= length (full_query table (map py_str (elements valid_ids))))
    (Hok : forall j, j < k -> api_fail j = None)
    (Hfail : api_fail k = Some msg) :
  fetch_follower_relationships valid_ids table order api_fail =
    (map (fun j => LPage (S j) page_size) (seq 0 k),
     Raise (RuntimeError "Follower query failed" (APIError msg))).
Proof.
  unfold fetch_follower_relationships.
  set (values := map py_str (elements valid_ids)) in *.
  set (len := length (full_query table values)) in *.
  assert (Hlen : forall j, length (full_query (order j table) values) = len)
    by (intros j; apply full_query_perm_length, Hperm).
  pose proof (full_query_length table values) as Hle. fold len in Hle.
  rewrite (page_loop_error table values order len Hlen api_fail msg (S (length table)) 0 k);
    [|lia|unfold page_size in *; nia|done|intros j Hj; apply Hok; lia|done].
  rewrite Nat.sub_0_r. done.
Qed.

Lemma follower_fetch_error_witness :
  let api_fail := fun j => if bool_decide (j = 1) then Some "statement timeout"%string else None in
  (forall j, Permutation (sample_order j sample_table) sample_table) /\
  1 * page_size <= length (full_query sample_table (map py_str (elements sample_valid_ids))) /\
  (forall j, j < 1 -> api_fail j = None) /\
  fetch_follower_relationships sample_valid_ids sample_table sample_order api_fail =
    (map (fun j => LPage (S j) page_size) (seq 0 1),
     Raise (RuntimeError "Follower query failed" (APIError "statement timeout"))).
Proof.
  intros api_fail.
  assert (Hp : forall j, Permutation (sample_order j sample_table) sample_table).
  { intros j. unfold sample_order. case_bool_decide; [|reflexivity].
    apply Permutation_sym, Permutation_rev. }
  assert (Hk : 1 * page_size <=
                 length (full_query sample_table (map py_str (elements sample_valid_ids))))
    by (apply Nat.leb_le; vm_compute; reflexivity).
  assert (Hok : forall j, j < 1 -> api_fail j = None)
    by (intros j Hj; assert (j = 0) as -> by lia; reflexivity).
  split; [exact Hp|]. split; [exact Hk|]. split; [exact Hok|].
  exact (follower_fetch_error sample_valid_ids sample_table sample_order api_fail 1
           "statement timeout" Hp Hk Hok eq_refl).
Defined.

(* ------------------------------------------------------------------ *)
(** ** The committed batch, described row by row *)

Lemma merge_user_twice (d : gmap jval dict) (a b x : jval) (w : ugraph) :
  users (merge_user b (endpoint_params d b) (merge_user a (endpoint_params d a) w)) !! x =
    if decide (x = a \/ x = b)
    then Some (set_details (endpoint_params d x) (default ∅ (users w !! x)))
    else users w !! x.
Proof.
  cbn [merge_user users].
  destruct (decide (x = b)) as [->|Hb].
  - rewrite lookup_insert_eq. rewrite decide_True by tauto. f_equal.
    destruct (decide (b = a)) as [->|Hba].
    + rewrite lookup_insert_eq. cbn [default]. apply set_details_idem.
    + by rewrite lookup_insert_ne by congruence.
  - rewrite lookup_insert_ne by congruence.
    destruct (decide (x = a)) as [->|Ha].
    + rewrite lookup_insert_eq, decide_True by tauto. done.
    + rewrite lookup_insert_ne by congruence. rewrite decide_False by tauto. done.
Qed.

Lemma valid_pairs_cons (valid_ids : gset jval) (row : dict) (rest : list dict) :
  valid_pairs valid_ids (row :: rest) =
    match valid_pair valid_ids row with
    | Some p => p :: valid_pairs valid_ids rest
    | None => valid_pairs valid_ids rest
    end.
Proof. reflexivity. Qed.

Lemma batch_endpoints_cons (valid_ids : gset jval) (row : dict) (rest : list dict) :
  batch_endpoints valid_ids (row :: rest) =
    match valid_pair valid_ids row with
    | Some p => p.1 :: p.2 :: batch_endpoints valid_ids rest
    | None => batch_endpoints valid_ids rest
    end.
Proof. unfold batch_endpoints. rewrite valid_pairs_cons. by destruct (valid_pair _ _). Qed.

(** A loop over rows that ends without exception: what it printed, the
    runs it made, and the graph it leaves. *)
Lemma tx_rows_ret (valid_ids : gset jval) (d : gmap jval dict) (env : neo_env)
    (rows : list dict) (i : nat) (w wf : ugraph) :
  tx_outcome (tx_rows valid_ids d env rows i w) = Ret wf ->
  tx_out (tx_rows valid_ids d env rows i w) = omap (skip_line valid_ids) rows /\
  tx_calls (tx_rows valid_ids d env rows i w) =
    map (fun p => CRun p.1 p.2) (valid_pairs valid_ids rows) /\
  followed_by wf = list_to_set (valid_pairs valid_ids rows) ∪ followed_by w /\
  forall x, users wf !! x =
    if decide (x ∈ batch_endpoints valid_ids rows)
    then Some (set_details (endpoint_params d x) (default ∅ (users w !! x)))
    else users w !! x.
Proof.
  revert i w. induction rows as [|row rest IH]; intros i w.
  - intros [= <-]. split; [done|]. split; [done|]. split; [set_solver|].
    intros x. rewrite decide_False; [done|]. intros Hx. by apply elem_of_nil in Hx.
  - rewrite valid_pairs_cons, batch_endpoints_cons. cbn [omap list_omap tx_rows].
    unfold skip_line at 1. unfold valid_pair.
    destruct (row !! "account_id") as [a|]; [|discriminate].
    destruct (row !! "follower_account_id") as [b|]; [|discriminate].
    case_bool_decide as Hv; cbn [tx_out tx_calls tx_outcome].
    + intros Hr. destruct (IH i w Hr) as (Ho & Hc & Hf & Hu).
      rewrite bool_decide_false by (intros [Ha Hb]; destruct Hv; tauto).
      rewrite Ho, Hc, Hf. done.
    + destruct (run_fail env i); [discriminate|].
      assert (Hab : a ∈ valid_ids /\ b ∈ valid_ids).
      { destruct (decide (a ∈ valid_ids)), (decide (b ∈ valid_ids)); tauto. }
      rewrite bool_decide_true by done.
      unfold upsert_row. destruct a as [|sa]; [discriminate|]. destruct b as [|sb]; [discriminate|].
      cbn [tx_out tx_calls tx_outcome].
      intros Hr. destruct (IH (S i) _ Hr) as (Ho & Hc & Hf & Hu).
      split; [done|]. split; [by rewrite Hc|]. split.
      { rewrite Hf. cbn [followed_by merge_user]. set_solver. }
      intros x. rewrite Hu. cbn [users].
      rewrite (merge_user_twice d (JStr sa) (JStr sb) x w). cbn [fst snd].
      destruct (decide (x ∈ _)) as [Hx|Hx]; destruct (decide (x = JStr sa \/ x = JStr sb)) as [Hxab|Hxab].
      * rewrite decide_True by (rewrite !elem_of_cons; tauto). cbn [default from_option id].
        by rewrite set_details_idem.
      * rewrite decide_True by (rewrite !elem_of_cons; tauto). done.
      * rewrite decide_True by (rewrite !elem_of_cons; tauto). done.
      * rewrite decide_False; [done|].
        rewrite !elem_of_cons. intros [?|[?|?]]; tauto.
Qed.

Lemma tx_rows_ret_iff (valid_ids : gset jval) (d : gmap jval dict) (env : neo_env)
    (rows : list dict) (i : nat) (w : ugraph) :
  (exists wf, tx_outcome (tx_rows valid_ids d env rows i w) = Ret wf) <->
  Forall has_keys rows /\
  forall j p, valid_pairs valid_ids rows !! j = Some p ->
    run_fail env (i + j) = None /\ p.1 <> JNull /\ p.2 <> JNull.
Proof.
  revert i w. induction rows as [|row rest IH]; intros i w.
  - split; [intros _; split; [by apply Forall_nil|intros [|j] p Hj; discriminate Hj]|intros _; by exists w].
  - rewrite valid_pairs_cons, Forall_cons. cbn [tx_rows]. unfold has_keys at 1, valid_pair.
    destruct (row !! "account_id") as [a|];
      [|cbn [tx_outcome]; split; [intros [? ?]; discriminate|intros [[[[? ?] _] _] _]; discriminate]].
    destruct (row !! "follower_account_id") as [b|];
      [|cbn [tx_outcome]; split; [intros [? ?]; discriminate|intros [[[_ [? ?]] _] _]; discriminate]].
    case_bool_decide as Hv; cbn [tx_outcome].
    + rewrite bool_decide_false by (intros [Ha Hb]; destruct Hv; tauto).
      rewrite (IH i w). split.
      * intros [Hk Hj]. split; [split; [split; eauto|done]|done].
      * intros [[_ Hk] Hj]. done.
    + assert (Hab : a ∈ valid_ids /\ b ∈ valid_ids).
      { destruct (decide (a ∈ valid_ids)), (decide (b ∈ valid_ids)); tauto. }
      rewrite bool_decide_true by done.
      destruct (run_fail env i) as [msg|] eqn:Hf.
      { cbn [tx_outcome]. split; [intros [? ?]; discriminate|]. intros [_ Hj]. destruct (Hj 0 (a, b) eq_refl) as [Hr _].
        rewrite Nat.add_0_r in Hr. congruence. }
      unfold upsert_row. destruct a as [|sa].
      { cbn [tx_outcome]. split; [intros [? ?]; discriminate|]. intros [_ Hj]. by destruct (Hj 0 (JNull, b) eq_refl) as (_ & ? & _). }
      destruct b as [|sb].
      { cbn [tx_outcome]. split; [intros [? ?]; discriminate|]. intros [_ Hj]. by destruct (Hj 0 (JStr sa, JNull) eq_refl) as (_ & _ & ?). }
      cbn [tx_outcome]. rewrite IH. split.
      * intros [Hk Hj]. split; [split; [split; eauto|done]|].
        intros [|j] p Hp.
        -- injection Hp as <-. rewrite Nat.add_0_r. done.
        -- rewrite Nat.add_succ_r, <- Nat.add_succ_l. by apply Hj.
      * intros [[_ Hk] Hj]. split; [done|]. intros j p Hp.
        rewrite Nat.add_succ_l, <- Nat.add_succ_r. by apply (Hj (S j)).
Qed.

(** A batch is committed exactly when the constraint statement and the
    commit succeed, every row has both keys, and the [tx.run] of every
    valid row succeeds with two non-null IDs. *)
Theorem insert_committed_iff (valid_ids : gset jval) (account_details : gmap jval dict)
    (env : neo_env) (rows : list dict) (g : ugraph) :
  committed (insert_relationships_into_neo4j valid_ids account_details env rows g) <->
  schema_fail env = None /\ commit_fail env = None /\ Forall has_keys rows /\
  forall j p, valid_pairs valid_ids rows !! j = Some p ->
    run_fail env j = None /\ p.1 <> JNull /\ p.2 <> JNull.
Proof.
  pose proof (tx_rows_ret_iff valid_ids account_details env rows 0 g) as Hiff.
  cbn [Nat.add] in Hiff.
  destruct (tx_calls_no_commit valid_ids account_details env rows 0 g) as [Hnc Hnr].
  unfold committed, insert_relationships_into_neo4j.
  destruct (schema_fail env) as [msg|]; cbn [ins_calls].
  { split; [intros [Hc _]; by apply elem_of_nil in Hc|intros [? _]; discriminate]. }
  destruct (tx_outcome _) as [w|e] eqn:Ho.
  - destruct (commit_fail env) as [msg|]; cbn [ins_calls].
    + split; [intros [_ Hr]; exfalso; apply Hr; set_solver|intros (_ & ? & _); discriminate].
    + split.
      * intros _. split; [done|]. split; [done|]. apply Hiff. eauto.
      * intros _. split; [set_solver|]. rewrite elem_of_app. intros [?|?]; [done|set_solver].
  - cbn [ins_calls]. split; [intros [_ Hr]; exfalso; apply Hr; set_solver|].
    intros (_ & _ & Hk). apply Hiff in Hk as [wf Hwf]. congruence.
Qed.

(** A committed batch, row by row: it prints the number of valid IDs,
    one skip line per row with an ID outside the valid set (in row order)
    and the commit line; it calls [tx.run] once per valid row, in row
    order, then commits and closes; it adds one [FOLLOWED_BY] edge per
    valid row; the endpoints of the valid rows get the five details set
    on the properties they had before, and every other node is unchanged. *)
Theorem insert_committed_batch (valid_ids : gset jval) (account_details : gmap jval dict)
    (env : neo_env) (rows : list dict) (g : ugraph)
    (Hc : committed (insert_relationships_into_neo4j valid_ids account_details env rows g)) :
  let r := insert_relationships_into_neo4j valid_ids account_details env rows g in
  ins_out r = [LInsertIds (size valid_ids)] ++ omap (skip_line valid_ids) rows ++ [LCommitted] /\
  ins_calls r = map (fun p => CRun p.1 p.2) (valid_pairs valid_ids rows) ++ [CCommit; CClose] /\
  followed_by (ins_graph r) = list_to_set (valid_pairs valid_ids rows) ∪ followed_by g /\
  forall x, users (ins_graph r) !! x =
    if decide (x ∈ batch_endpoints valid_ids rows)
    then Some (set_details (endpoint_params account_details x) (default ∅ (users g !! x)))
    else users g !! x.
Proof.
  intros r. destruct (insert_committed_inv _ _ _ _ _ Hc) as (Hs & Hcf & Ho).
  pose proof (insert_committed_out _ _ _ _ _ Hc) as Hout. fold r in Ho, Hout.
  destruct (tx_rows_ret _ _ _ _ _ _ _ Ho) as (Htx & Hcalls & Hf & Hu).
  split; [by rewrite Hout, Htx|]. split; [|done].
  unfold r, insert_relationships_into_neo4j. rewrite Hs.
  unfold r in Ho. rewrite Ho, Hcf. cbn [ins_calls]. by rewrite Hcalls.
Qed.

Lemma insert_committed_batch_witness :
  let env := mkNeoEnv None (fun _ => None) None in
  let rows := [project (mkFollowerRow (JStr "A") (JStr "B"));
               project (mkFollowerRow (JStr "B") (JStr "Z"))] in
  let valid := {[JStr "A"; JStr "B"]} : gset jval in
  let g := mkUGraph {[JStr "A" := {[ "bio" := JStr "old" ]}]} ∅ in
  let r := insert_relationships_into_neo4j valid ∅ env rows g in
  committed r /\
  ins_out r = [LInsertIds (size valid)] ++ omap (skip_line valid) rows ++ [LCommitted] /\
  ins_calls r = map (fun p => CRun p.1 p.2) (valid_pairs valid rows) ++ [CCommit; CClose] /\
  followed_by (ins_graph r) = list_to_set (valid_pairs valid rows) ∪ followed_by g /\
  forall x, users (ins_graph r) !! x =
    if decide (x ∈ batch_endpoints valid rows)
    then Some (set_details (endpoint_params ∅ x) (default ∅ (users g !! x)))
    else users g !! x.
Proof.
  intros env rows valid g r.
  assert (Hc : committed r).
  { split; [apply (bool_decide_unpack (CCommit ∈ ins_calls r))
           |apply (bool_decide_unpack (CRollback ∉ ins_calls r))]; vm_compute; exact I. }
  split; [exact Hc|].
  exact (insert_committed_batch valid ∅ env rows g Hc).
Defined.

(** The committed graph depends on the rows only through their valid
    (followed, follower) pairs: the order of the rows, repeated rows,
    rows skipped for an ID outside the valid set, and which [tx.run]
    calls would have failed elsewhere make no difference. *)
Theorem insert_committed_same_pairs (valid_ids : gset jval) (account_details : gmap jval dict)
    (env env' : neo_env) (rows rows' : list dict) (g : ugraph)
    (Hc : committed (insert_relationships_into_neo4j valid_ids account_details env rows g))
    (Hc' : committed (insert_relationships_into_neo4j valid_ids account_details env' rows' g))
    (Hp : forall p, p ∈ valid_pairs valid_ids rows <-> p ∈ valid_pairs valid_ids rows') :
  ins_graph (insert_relationships_into_neo4j valid_ids account_details env rows g) =
  ins_graph (insert_relationships_into_neo4j valid_ids account_details env' rows' g).
Proof.
  destruct (insert_committed_batch _ _ _ _ _ Hc) as (_ & _ & Hf & Hu).
  destruct (insert_committed_batch _ _ _ _ _ Hc') as (_ & _ & Hf' & Hu').
  assert (He : forall x, x ∈ batch_endpoints valid_ids rows <-> x ∈ batch_endpoints valid_ids rows').
  { intros x. unfold batch_endpoints. rewrite !list_elem_of_In, !in_flat_map.
    split; intros (p & Hin & Hx); exists p; (split; [|exact Hx]);
      apply list_elem_of_In; apply Hp; apply list_elem_of_In; exact Hin. }
  destruct (ins_graph (insert_relationships_into_neo4j _ _ env rows g)) as [us fb] eqn:E1.
  destruct (ins_graph (insert_relationships_into_neo4j _ _ env' rows' g)) as [us' fb'] eqn:E2.
  cbn [users followed_by] in *. f_equal.
  - apply map_eq. intros x. rewrite Hu, Hu'.
    destruct (decide (x ∈ batch_endpoints valid_ids rows)) as [Hx|Hx],
      (decide (x ∈ batch_endpoints valid_ids rows')) as [Hx'|Hx']; try done;
      exfalso; [apply Hx'|apply Hx]; by apply He.
  - rewrite Hf, Hf'. apply leibniz_equiv. intros p. rewrite !elem_of_union, !elem_of_list_to_set.
    by rewrite Hp.
Qed.

Lemma insert_committed_same_pairs_witness :
  let env := mkNeoEnv None (fun _ => None) None in
  let rows := [project (mkFollowerRow (JStr "A") (JStr "B"));
               project (mkFollowerRow (JStr "B") (JStr "A"))] in
  let rows' := [project (mkFollowerRow (JStr "B") (JStr "A"));
                project (mkFollowerRow (JStr "Z") (JStr "A"));
                project (mkFollowerRow (JStr "A") (JStr "B"));
                project (mkFollowerRow (JStr "B") (JStr "A"))] in
  let valid := {[JStr "A"; JStr "B"]} : gset jval in
  committed (insert_relationships_into_neo4j valid ∅ env rows (mkUGraph ∅ ∅)) /\
  committed (insert_relationships_into_neo4j valid ∅ env rows' (mkUGraph ∅ ∅)) /\
  (forall p, p ∈ valid_pairs valid rows <-> p ∈ valid_pairs valid rows') /\
  ins_graph (insert_relationships_into_neo4j valid ∅ env rows (mkUGraph ∅ ∅)) =
  ins_graph (insert_relationships_into_neo4j valid ∅ env rows' (mkUGraph ∅ ∅)).
Proof.
  intros env rows rows' valid.
  assert (Hc : committed (insert_relationships_into_neo4j valid ∅ env rows (mkUGraph ∅ ∅))).
  { split; [apply (bool_decide_unpack (CCommit ∈ _))
           |apply (bool_decide_unpack (CRollback ∉ _))]; vm_compute; exact I. }
  assert (Hc' : committed (insert_relationships_into_neo4j valid ∅ env rows' (mkUGraph ∅ ∅))).
  { split; [apply (bool_decide_unpack (CCommit ∈ _))
           |apply (bool_decide_unpack (CRollback ∉ _))]; vm_compute; exact I. }
  assert (Hp : forall p, p ∈ valid_pairs valid rows <-> p ∈ valid_pairs valid rows').
  { assert (E1 : valid_pairs valid rows = [(JStr "A", JStr "B"); (JStr "B", JStr "A")])
      by (vm_compute; reflexivity).
    assert (E2 : valid_pairs valid rows' =
      [(JStr "B", JStr "A"); (JStr "A", JStr "B"); (JStr "B", JStr "A")])
      by (vm_compute; reflexivity).
    intros p. rewrite E1, E2. set_solver. }
  do 3 (split; [assumption|]).
  exact (insert_committed_same_pairs valid ∅ env env rows rows' (mkUGraph ∅ ∅) Hc Hc' Hp).
Defined.


(* ------------------------------------------------------------------ *)
(** ** Periodic commit: what a statement keeps *)

Lemma chunks_aux_eq {R} (rows cur : list R) (n : nat) :
  length cur = n -> n < 1000 -> (rows <> [] \/ cur <> []) ->
  chunks_aux rows cur n = (rev cur ++ take (1000 - n) rows) :: chunks_aux (drop (1000 - n) rows) [] 0.
Proof.
  revert cur n. induction rows as [|r rest IH]; intros cur n Hl Hn Hne.
  - destruct cur as [|c cur]; [by destruct Hne|]. rewrite take_nil, drop_nil, app_nil_r. done.
  - cbn [chunks_aux]. case_bool_decide as H1000.
    + replace (1000 - n) with 1 by lia. simpl. done.
    + rewrite (IH (r :: cur) (S n)); [|simpl; lia|lia|right; done].
      replace (1000 - n) with (S (1000 - S n)) by lia. simpl.
      by rewrite <- app_assoc.
Qed.

Lemma chunks_nil {R} : chunks (@nil R) = [].
Proof. reflexivity. Qed.

Lemma chunks_cons_eq {R} (rows : list R) :
  rows <> [] -> chunks rows = take 1000 rows :: chunks (drop 1000 rows).
Proof. intros Hne. unfold chunks. rewrite chunks_aux_eq; [done|done|lia|by left]. Qed.

Lemma run_chunk_app {R G} (step : R -> G -> option G) (l1 l2 : list R) (g : G) :
  run_chunk step (l1 ++ l2) g = run_chunk step l1 g ≫= run_chunk step l2.
Proof.
  revert g. induction l1 as [|r l1 IH]; intros g; [done|]. simpl.
  destruct (step r g); [apply IH|done].
Qed.

(** A statement ends either having run every row, or with the rows of
    the first [n] chunks committed and the [n+1]-th chunk failing. *)
Lemma run_statement_cases {R G} (step : R -> G -> option G) (rows : list R) (g g' : G) (e : bool) :
  run_statement step rows g = (g', e) ->
  (e = false /\ run_chunk step rows g = Some g') \/
  (e = true /\ exists n, n * 1000 < length rows /\
     run_chunk step (take (n * 1000) rows) g = Some g' /\
     run_chunk step (take (n * 1000 + 1000) rows) g = None).
Proof.
  remember (length rows) as len eqn:Hlen. revert rows g Hlen.
  induction len as [len IH] using lt_wf_ind. intros rows g Hlen.
  unfold run_statement. destruct rows as [|r rest].
  - rewrite chunks_nil. simpl. intros [= <- <-]. by left.
  - rewrite chunks_cons_eq by done. cbn [run_chunks].
    destruct (run_chunk step (take 1000 (r :: rest)) g) as [g1|] eqn:H1.
    + intros Hs. fold (run_statement step (drop 1000 (r :: rest)) g1) in Hs.
      assert (Hlt : length (drop 1000 (r :: rest)) < len) by (rewrite length_drop; simpl in *; lia).
      destruct (IH _ Hlt _ g1 eq_refl Hs) as [[-> Hc]|[-> (n & Hn & Hc & Hf)]].
      * left. split; [done|]. rewrite <- (take_drop 1000 (r :: rest)).
        rewrite run_chunk_app, H1. exact Hc.
      * right. split; [done|]. exists (S n). rewrite length_drop in Hn. split; [lia|].
        replace (S n * 1000) with (1000 + n * 1000) by lia.
        replace (1000 + n * 1000 + 1000) with (1000 + (n * 1000 + 1000)) by lia.
        rewrite <- (take_take_drop _ 1000 (n * 1000)), <- (take_take_drop _ 1000 (n * 1000 + 1000)).
        rewrite !run_chunk_app, H1. split; [exact Hc|exact Hf].
    + intros [= <- <-]. right. split; [done|]. exists 0. split; [subst len; cbn [length]; lia|split; [reflexivity|exact H1]].
Qed.

(* ------------------------------------------------------------------ *)
(** ** Relationships of the bulk graph only join existing nodes *)
Lemma match_node_is_Some {K V} `{Countable K} (m : gmap K V) (k : option K) (x : K) :
  match_node m k = Some x -> is_Some (m !! x).
Proof. unfold match_node. destruct k; [|discriminate]. case_bool_decide; [|discriminate]. by intros [= <-]. Qed.

Lemma merge_edge_elem {A B} `{Countable A} `{Countable B}
    (a : option A) (b : option B) (s : gset (A * B)) (x : A) (y : B) :
  (x, y) ∈ merge_edge a b s <-> (x, y) ∈ s \/ (a = Some x /\ b = Some y).
Proof.
  unfold merge_edge. destruct a as [a|], b as [b|];
    [rewrite elem_of_union, elem_of_singleton; split; [intros [[=]|]|intros [|[[=] [=]]]]; subst; auto
    |split; [auto|intros [|[? ?]]; done]..].
Qed.

Lemma run_chunk_inv {R G} (step : R -> G -> option G) (Inv : G -> Prop)
    (Hstep : forall r h h', step r h = Some h' -> Inv h -> Inv h') (rows : list R) (g g' : G) :
  run_chunk step rows g = Some g' -> Inv g -> Inv g'.
Proof.
  revert g. induction rows as [|r rest IH]; intros g; simpl; [by intros [= <-]|].
  destruct (step r g) as [g1|] eqn:Hs; [|discriminate]. intros Hr Hg.
  apply (IH g1 Hr). by apply (Hstep r g g1).
Qed.

Lemma run_statement_inv {R G} (step : R -> G -> option G) (Inv : G -> Prop)
    (Hstep : forall r h h', step r h = Some h' -> Inv h -> Inv h') (rows : list R) (g : G) :
  Inv g -> Inv (fst (run_statement step rows g)).
Proof.
  intros Hg. destruct (run_statement step rows g) as [g' e] eqn:Hs. cbn [fst].
  destruct (run_statement_cases step rows g g' e Hs) as [[_ Hc]|[_ (n & _ & Hc & _)]];
    exact (run_chunk_inv step Inv Hstep _ g g' Hc Hg).
Qed.

Lemma merge_on_create_keep {K} `{Countable K} (k : K) (p : gmap string nval)
    (m : gmap K (gmap string nval)) (x : K) :
  is_Some (m !! x) -> is_Some (merge_on_create k p m !! x).
Proof. intros Hx. eapply lookup_weaken_is_Some; [exact Hx|apply merge_on_create_subseteq]. Qed.

Lemma load_account_no_dangling (to_integer : string -> option Z) (row : csvrow) (h h' : bgraph) :
  load_account to_integer row h = Some h' -> no_dangling h -> no_dangling h'.
Proof.
  unfold load_account. destruct (row !! "account_id") as [k|]; [|discriminate].
  intros [= <-] (Htw & Hfo & Hli & Hme). unfold no_dangling.
  cbn [accounts tweets media tweeted follows likes has_media].
  split_and!.
  - intros a t Ht. destruct (Htw a t Ht). split; [by apply merge_on_create_keep|done].
  - intros a b Hab. destruct (Hfo a b Hab). split; by apply merge_on_create_keep.
  - intros a t Ht. destruct (Hli a t Ht). split; [by apply merge_on_create_keep|done].
  - done.
Qed.

Lemma load_tweet_no_dangling (to_integer : string -> option Z) (row : csvrow) (h h' : bgraph) :
  load_tweet to_integer row h = Some h' -> no_dangling h -> no_dangling h'.
Proof.
  unfold load_tweet. destruct (row !! "tweet_id") as [k|]; [|discriminate].
  intros [= <-] (Htw & Hfo & Hli & Hme). unfold no_dangling.
  cbn [accounts tweets media tweeted follows likes has_media].
  split_and!.
  - intros a t Ht. apply merge_edge_elem in Ht as [Ht|[Ha [= <-]]].
    + destruct (Htw a t Ht). split; [done|by apply merge_on_create_keep].
    + split; [by eapply match_node_is_Some|apply merge_on_create_is_Some].
  - done.
  - intros a t Ht. destruct (Hli a t Ht). split; [done|by apply merge_on_create_keep].
  - intros t m Ht. destruct (Hme t m Ht). split; [by apply merge_on_create_keep|done].
Qed.

Lemma load_follower_no_dangling (row : csvrow) (h h' : bgraph) :
  load_follower row h = Some h' -> no_dangling h -> no_dangling h'.
Proof.
  unfold load_follower. intros [= <-] (Htw & Hfo & Hli & Hme). unfold no_dangling.
  cbn [accounts tweets media tweeted follows likes has_media].
  split_and!; try done.
  intros a b Hab. apply merge_edge_elem in Hab as [Hab|[Ha Hb]]; [by apply Hfo|].
  split; by eapply match_node_is_Some.
Qed.

Lemma load_following_no_dangling (row : csvrow) (h h' : bgraph) :
  load_following row h = Some h' -> no_dangling h -> no_dangling h'.
Proof.
  unfold load_following. intros [= <-] (Htw & Hfo & Hli & Hme). unfold no_dangling.
  cbn [accounts tweets media tweeted follows likes has_media].
  split_and!; try done.
  intros a b Hab. apply merge_edge_elem in Hab as [Hab|[Ha Hb]]; [by apply Hfo|].
  split; by eapply match_node_is_Some.
Qed.

Lemma load_like_no_dangling (row : csvrow) (h h' : bgraph) :
  load_like row h = Some h' -> no_dangling h -> no_dangling h'.
Proof.
  unfold load_like. intros [= <-] (Htw & Hfo & Hli & Hme). unfold no_dangling.
  cbn [accounts tweets media tweeted follows likes has_media].
  split_and!; try done.
  intros a t Ht. apply merge_edge_elem in Ht as [Ht|[Ha Hb]]; [by apply Hli|].
  split; by eapply match_node_is_Some.
Qed.

Lemma load_media_no_dangling (to_integer : string -> option Z) (row : csvrow) (h h' : bgraph) :
  load_media to_integer row h = Some h' -> no_dangling h -> no_dangling h'.
Proof.
  unfold load_media. destruct (row !! "media_id" ≫= to_integer) as [k|]; [|discriminate].
  intros [= <-] (Htw & Hfo & Hli & Hme). unfold no_dangling.
  cbn [accounts tweets media tweeted follows likes has_media].
  split_and!; try done.
  intros t m Ht. apply merge_edge_elem in Ht as [Ht|[Ht [= <-]]].
  - destruct (Hme t m Ht). split; [done|by apply merge_on_create_keep].
  - split; [by eapply match_node_is_Some|apply merge_on_create_is_Some].
Qed.

(** Whether it succeeds or raises part-way, the bulk load never leaves a
    [TWEETED], [FOLLOWS], [LIKES] or [HAS_MEDIA] relationship whose end
    node is missing, when the graph had none before: each relationship
    statement MATCHes both ends first, and nodes are never removed. *)
Theorem load_data_no_dangling (to_integer : string -> option Z) (csv : csv_files) (g : bgraph)
    (Hg : no_dangling g) :
  no_dangling (snd (load_data_into_neo4j to_integer csv g)).
Proof.
  unfold load_data_into_neo4j.
  pose proof (run_statement_inv _ _ (load_account_no_dangling to_integer) (account_csv csv) g Hg) as H1.
  destruct (run_statement (load_account to_integer) (account_csv csv) g) as [g1 e1]. cbn [fst] in H1.
  destruct e1; [done|].
  pose proof (run_statement_inv _ _ (load_tweet_no_dangling to_integer) (enriched_tweets_csv csv) g1 H1) as H2.
  destruct (run_statement (load_tweet to_integer) _ g1) as [g2 e2]. cbn [fst] in H2.
  destruct e2; [done|].
  pose proof (run_statement_inv _ _ load_follower_no_dangling (followers_csv csv) g2 H2) as H3.
  destruct (run_statement load_follower _ g2) as [g3 e3]. cbn [fst] in H3.
  destruct e3; [done|].
  pose proof (run_statement_inv _ _ load_following_no_dangling (following_csv csv) g3 H3) as H4.
  destruct (run_statement load_following _ g3) as [g4 e4]. cbn [fst] in H4.
  destruct e4; [done|].
  pose proof (run_statement_inv _ _ load_like_no_dangling (likes_csv csv) g4 H4) as H5.
  destruct (run_statement load_like _ g4) as [g5 e5]. cbn [fst] in H5.
  destruct e5; [done|].
  pose proof (run_statement_inv _ _ (load_media_no_dangling to_integer) (tweet_media_csv csv) g5 H5) as H6.
  destruct (run_statement (load_media to_integer) _ g5) as [g6 e6]. cbn [fst] in H6.
  by destruct e6.
Qed.

Lemma load_data_no_dangling_witness :
  let ti := fun s : string => if bool_decide (s = "7") then Some 7%Z else None in
  let g := mkBGraph {[ "A" := ∅ ]} ∅ ∅ ∅ {[ ("A", "A") ]} ∅ ∅ in
  let csv := mkCsvFiles [{[ "account_id" := "B" ]}] [{[ "tweet_id" := "T"; "account_id" := "B" ]}]
               [{[ "account_id" := "A"; "follower_account_id" := "Z" ]}] [] []
               [{[ "media_id" := "7"; "tweet_id" := "T" ]}] in
  no_dangling g /\ no_dangling (snd (load_data_into_neo4j ti csv g)).
Proof.
  intros ti g csv.
  assert (Hg : no_dangling g).
  { unfold no_dangling, g. cbn [accounts tweets media tweeted follows likes has_media].
    split_and!; intros x y Hxy; try by apply elem_of_empty in Hxy.
    apply elem_of_singleton in Hxy. injection Hxy as -> ->.
    split; by rewrite lookup_singleton_eq. }
  split; [exact Hg|exact (load_data_no_dangling ti csv g Hg)].
Defined.

(* ------------------------------------------------------------------ *)
(** ** The graph after a bulk load that succeeds *)

Lemma match_node_Some {K V} `{Countable K} (m : gmap K V) (k : option K) (x : K) :
  match_node m k = Some x <-> k = Some x /\ is_Some (m !! x).
Proof.
  unfold match_node. destruct k as [k|]; [|split; [discriminate|intros [[=] _]]].
  case_bool_decide as Hk; split.
  - intros [= <-]. done.
  - intros [[= <-] _]. done.
  - discriminate.
  - intros [[= <-] Hx]. done.
Qed.

Lemma merge_on_create_is_Some_iff {K} `{Countable K} (k : K) (p : gmap string nval)
    (m : gmap K (gmap string nval)) (x : K) :
  is_Some (merge_on_create k p m !! x) <-> x = k \/ is_Some (m !! x).
Proof.
  split.
  - unfold merge_on_create. destruct (m !! k) eqn:Hk; [by right|].
    destruct (decide (x = k)) as [->|Hne]; [by left|]. rewrite lookup_insert_ne by done. by right.
  - intros [->|Hx]; [apply merge_on_create_is_Some|by apply merge_on_create_keep].
Qed.

Lemma account_chunk (to_integer : string -> option Z) (rows : list csvrow) (h h' : bgraph) :
  run_chunk (load_account to_integer) rows h = Some h' ->
  (forall k, is_Some (accounts h' !! k) <->
     is_Some (accounts h !! k) \/ exists row, row ∈ rows /\ row !! "account_id" = Some k) /\
  h' = mkBGraph (accounts h') (tweets h) (media h) (tweeted h) (follows h) (likes h) (has_media h).
Proof.
  revert h. induction rows as [|r rest IH]; intros h; cbn [run_chunk].
  - intros [= <-]. split; [|by destruct h]. intros k. split; [by left|].
    intros [Hk|(row & Hrow & _)]; [done|by apply elem_of_nil in Hrow].
  - unfold load_account at 1. destruct (r !! "account_id") as [k0|] eqn:Hr; [|discriminate].
    intros Hc. destruct (IH _ Hc) as [Hk Heq]. cbn [accounts tweets media tweeted follows likes has_media] in *.
    split; [|exact Heq]. intros k. rewrite Hk, merge_on_create_is_Some_iff. split.
    + intros [[->|Hk']|(row & Hrow & Hrk)]; [right; exists r; split; [by left|done]|by left|].
      right. exists row. split; [by right|done].
    + intros [Hk'|(row & Hrow & Hrk)]; [left; by right|].
      apply elem_of_cons in Hrow as [->|Hrow]; [left; left; congruence|].
      right. by exists row.
Qed.

Lemma tweet_chunk (to_integer : string -> option Z) (rows : list csvrow) (h h' : bgraph) :
  run_chunk (load_tweet to_integer) rows h = Some h' ->
  (forall t, is_Some (tweets h' !! t) <->
     is_Some (tweets h !! t) \/ exists row, row ∈ rows /\ row !! "tweet_id" = Some t) /\
  (forall a t, (a, t) ∈ tweeted h' <-> (a, t) ∈ tweeted h \/
     (is_Some (accounts h !! a) /\
      exists row, row ∈ rows /\ row !! "tweet_id" = Some t /\ row !! "account_id" = Some a)) /\
  h' = mkBGraph (accounts h) (tweets h') (media h) (tweeted h') (follows h) (likes h) (has_media h).
Proof.
  revert h. induction rows as [|r rest IH]; intros h; cbn [run_chunk].
  - intros [= <-]. split; [|split; [|by destruct h]].
    + intros k. split; [by left|]. intros [Hk|(row & Hrow & _)]; [done|by apply elem_of_nil in Hrow].
    + intros a t. split; [by left|]. intros [H|(_ & row & Hrow & _)]; [done|by apply elem_of_nil in Hrow].
  - unfold load_tweet at 1. destruct (r !! "tweet_id") as [t0|] eqn:Hr; [|discriminate].
    intros Hc. destruct (IH _ Hc) as (Ht & He & Heq).
    cbn [accounts tweets media tweeted follows likes has_media] in *.
    split; [|split; [|exact Heq]].
    + intros t. rewrite Ht, merge_on_create_is_Some_iff. split.
      * intros [[->|Ht']|(row & Hrow & Hrt)]; [right; exists r; split; [by left|done]|by left|].
        right. exists row. split; [by right|done].
      * intros [Ht'|(row & Hrow & Hrt)]; [left; by right|].
        apply elem_of_cons in Hrow as [->|Hrow]; [left; left; congruence|].
        right. by exists row.
    + intros a t. rewrite He, merge_edge_elem, match_node_Some. split.
      * intros [[H|([Ha Hsa] & [= <-])]|(Hsa & row & Hrow & Hrt & Hra)]; [by left| |].
        -- right. split; [done|]. exists r. split; [by left|done].
        -- right. split; [done|]. exists row. split; [by right|done].
      * intros [H|(Hsa & row & Hrow & Hrt & Hra)]; [left; by left|].
        apply elem_of_cons in Hrow as [->|Hrow].
        -- left. right. split; [done|congruence].
        -- right. split; [done|]. by exists row.
Qed.

Lemma follower_chunk (rows : list csvrow) (h h' : bgraph) :
  run_chunk load_follower rows h = Some h' ->
  (forall x y, (x, y) ∈ follows h' <-> (x, y) ∈ follows h \/
     (is_Some (accounts h !! x) /\ is_Some (accounts h !! y) /\
      exists row, row ∈ rows /\ row !! "follower_account_id" = Some x /\ row !! "account_id" = Some y)) /\
  h' = mkBGraph (accounts h) (tweets h) (media h) (tweeted h) (follows h') (likes h) (has_media h).
Proof.
  revert h. induction rows as [|r rest IH]; intros h; cbn [run_chunk].
  - intros [= <-]. split; [|by destruct h]. intros x y. split; [by left|].
    intros [H|(_ & _ & row & Hrow & _)]; [done|by apply elem_of_nil in Hrow].
  - unfold load_follower at 1. intros Hc. destruct (IH _ Hc) as (Hf & Heq).
    cbn [accounts tweets media tweeted follows likes has_media] in *.
    split; [|exact Heq]. intros x y. rewrite Hf, merge_edge_elem, !match_node_Some. split.
    + intros [[H|([Hx Hsx] & [Hy Hsy])]|(Hsx & Hsy & row & Hrow & Hrx & Hry)]; [by left| |].
      * right. split_and!; [done|done|]. exists r. split; [by left|done].
      * right. split_and!; [done|done|]. exists row. split; [by right|done].
    + intros [H|(Hsx & Hsy & row & Hrow & Hrx & Hry)]; [left; by left|].
      apply elem_of_cons in Hrow as [->|Hrow].
      * left. right. done.
      * right. split_and!; [done|done|]. by exists row.
Qed.

Lemma following_chunk (rows : list csvrow) (h h' : bgraph) :
  run_chunk load_following rows h = Some h' ->
  (forall x y, (x, y) ∈ follows h' <-> (x, y) ∈ follows h \/
     (is_Some (accounts h !! x) /\ is_Some (accounts h !! y) /\
      exists row, row ∈ rows /\ row !! "account_id" = Some x /\ row !! "following_account_id" = Some y)) /\
  h' = mkBGraph (accounts h) (tweets h) (media h) (tweeted h) (follows h') (likes h) (has_media h).
Proof.
  revert h. induction rows as [|r rest IH]; intros h; cbn [run_chunk].
  - intros [= <-]. split; [|by destruct h]. intros x y. split; [by left|].
    intros [H|(_ & _ & row & Hrow & _)]; [done|by apply elem_of_nil in Hrow].
  - unfold load_following at 1. intros Hc. destruct (IH _ Hc) as (Hf & Heq).
    cbn [accounts tweets media tweeted follows likes has_media] in *.
    split; [|exact Heq]. intros x y. rewrite Hf, merge_edge_elem, !match_node_Some. split.
    + intros [[H|([Hx Hsx] & [Hy Hsy])]|(Hsx & Hsy & row & Hrow & Hrx & Hry)]; [by left| |].
      * right. split_and!; [done|done|]. exists r. split; [by left|done].
      * right. split_and!; [done|done|]. exists row. split; [by right|done].
    + intros [H|(Hsx & Hsy & row & Hrow & Hrx & Hry)]; [left; by left|].
      apply elem_of_cons in Hrow as [->|Hrow].
      * left. right. done.
      * right. split_and!; [done|done|]. by exists row.
Qed.

Lemma like_chunk (rows : list csvrow) (h h' : bgraph) :
  run_chunk load_like rows h = Some h' ->
  (forall a t, (a, t) ∈ likes h' <-> (a, t) ∈ likes h \/
     (is_Some (accounts h !! a) /\ is_Some (tweets h !! t) /\
      exists row, row ∈ rows /\ row !! "account_id" = Some a /\ row !! "liked_tweet_id" = Some t)) /\
  h' = mkBGraph (accounts h) (tweets h) (media h) (tweeted h) (follows h) (likes h') (has_media h).
Proof.
  revert h. induction rows as [|r rest IH]; intros h; cbn [run_chunk].
  - intros [= <-]. split; [|by destruct h]. intros x y. split; [by left|].
    intros [H|(_ & _ & row & Hrow & _)]; [done|by apply elem_of_nil in Hrow].
  - unfold load_like at 1. intros Hc. destruct (IH _ Hc) as (Hf & Heq).
    cbn [accounts tweets media tweeted follows likes has_media] in *.
    split; [|exact Heq]. intros x y. rewrite Hf, merge_edge_elem, !match_node_Some. split.
    + intros [[H|([Hx Hsx] & [Hy Hsy])]|(Hsx & Hsy & row & Hrow & Hrx & Hry)]; [by left| |].
      * right. split_and!; [done|done|]. exists r. split; [by left|done].
      * right. split_and!; [done|done|]. exists row. split; [by right|done].
    + intros [H|(Hsx & Hsy & row & Hrow & Hrx & Hry)]; [left; by left|].
      apply elem_of_cons in Hrow as [->|Hrow].
      * left. right. done.
      * right. split_and!; [done|done|]. by exists row.
Qed.

Lemma media_chunk (to_integer : string -> option Z) (rows : list csvrow) (h h' : bgraph) :
  run_chunk (load_media to_integer) rows h = Some h' ->
  (forall m, is_Some (media h' !! m) <->
     is_Some (media h !! m) \/ exists row, row ∈ rows /\ row !! "media_id" ≫= to_integer = Some m) /\
  (forall t m, (t, m) ∈ has_media h' <-> (t, m) ∈ has_media h \/
     (is_Some (tweets h !! t) /\
      exists row, row ∈ rows /\ row !! "tweet_id" = Some t /\ row !! "media_id" ≫= to_integer = Some m)) /\
  h' = mkBGraph (accounts h) (tweets h) (media h') (tweeted h) (follows h) (likes h) (has_media h').
Proof.
  revert h. induction rows as [|r rest IH]; intros h; cbn [run_chunk].
  - intros [= <-]. split; [|split; [|by destruct h]].
    + intros k. split; [by left|]. intros [Hk|(row & Hrow & _)]; [done|by apply elem_of_nil in Hrow].
    + intros a t. split; [by left|]. intros [H|(_ & row & Hrow & _)]; [done|by apply elem_of_nil in Hrow].
  - unfold load_media at 1. destruct (r !! "media_id" ≫= to_integer) as [m0|] eqn:Hr; [|discriminate].
    intros Hc. destruct (IH _ Hc) as (Ht & He & Heq).
    cbn [accounts tweets media tweeted follows likes has_media] in *.
    split; [|split; [|exact Heq]].
    + intros m. rewrite Ht, merge_on_create_is_Some_iff. split.
      * intros [[->|Hm']|(row & Hrow & Hrm)]; [right; exists r; split; [by left|done]|by left|].
        right. exists row. split; [by right|done].
      * intros [Hm'|(row & Hrow & Hrm)]; [left; by right|].
        apply elem_of_cons in Hrow as [->|Hrow]; [left; left; congruence|].
        right. by exists row.
    + intros t m. rewrite He, merge_edge_elem, match_node_Some. split.
      * intros [[H|([Ht' Hst] & [= <-])]|(Hst & row & Hrow & Hrt & Hrm)]; [by left| |].
        -- right. split; [done|]. exists r. split; [by left|done].
        -- right. split; [done|]. exists row. split; [by right|done].
      * intros [H|(Hst & row & Hrow & Hrt & Hrm)]; [left; by left|].
        apply elem_of_cons in Hrow as [->|Hrow].
        -- left. right. split; [done|congruence].
        -- right. split; [done|]. by exists row.
Qed.

(** A bulk load that succeeds, as sets: the [:Account], [:Tweet] and
    [:Media] keys are the old ones and those of the rows; and each
    relationship is an old one or comes from a row whose two ends are
    nodes once the node statements have run ([TWEETED] and [FOLLOWS]
    need the [:Account] nodes, [LIKES] also the [:Tweet] nodes, and
    [HAS_MEDIA] the [:Tweet] nodes). *)
Theorem load_data_success (to_integer : string -> option Z) (csv : csv_files) (g : bgraph)
    (Hok : fst (load_data_into_neo4j to_integer csv g) = Ret tt) :
  let g' := snd (load_data_into_neo4j to_integer csv g) in
  let acc k := is_Some (accounts g !! k) \/
               exists row, row ∈ account_csv csv /\ row !! "account_id" = Some k in
  let tw t := is_Some (tweets g !! t) \/
              exists row, row ∈ enriched_tweets_csv csv /\ row !! "tweet_id" = Some t in
  (forall k, is_Some (accounts g' !! k) <-> acc k) /\
  (forall t, is_Some (tweets g' !! t) <-> tw t) /\
  (forall m, is_Some (media g' !! m) <-> is_Some (media g !! m) \/
     exists row, row ∈ tweet_media_csv csv /\ row !! "media_id" ≫= to_integer = Some m) /\
  (forall a t, (a, t) ∈ tweeted g' <-> (a, t) ∈ tweeted g \/
     (acc a /\ exists row, row ∈ enriched_tweets_csv csv /\
        row !! "tweet_id" = Some t /\ row !! "account_id" = Some a)) /\
  (forall x y, (x, y) ∈ follows g' <-> (x, y) ∈ follows g \/
     (acc x /\ acc y /\
      ((exists row, row ∈ followers_csv csv /\
          row !! "follower_account_id" = Some x /\ row !! "account_id" = Some y) \/
       (exists row, row ∈ following_csv csv /\
          row !! "account_id" = Some x /\ row !! "following_account_id" = Some y)))) /\
  (forall a t, (a, t) ∈ likes g' <-> (a, t) ∈ likes g \/
     (acc a /\ tw t /\ exists row, row ∈ likes_csv csv /\
        row !! "account_id" = Some a /\ row !! "liked_tweet_id" = Some t)) /\
  (forall t m, (t, m) ∈ has_media g' <-> (t, m) ∈ has_media g \/
     (tw t /\ exists row, row ∈ tweet_media_csv csv /\
        row !! "tweet_id" = Some t /\ row !! "media_id" ≫= to_integer = Some m)).
Proof.
  revert Hok. unfold load_data_into_neo4j.
  destruct (run_statement (load_account to_integer) (account_csv csv) g) as [g1 e1] eqn:E1.
  destruct e1; [discriminate|].
  destruct (run_statement (load_tweet to_integer) (enriched_tweets_csv csv) g1) as [g2 e2] eqn:E2.
  destruct e2; [discriminate|].
  destruct (run_statement load_follower (followers_csv csv) g2) as [g3 e3] eqn:E3.
  destruct e3; [discriminate|].
  destruct (run_statement load_following (following_csv csv) g3) as [g4 e4] eqn:E4.
  destruct e4; [discriminate|].
  destruct (run_statement load_like (likes_csv csv) g4) as [g5 e5] eqn:E5.
  destruct e5; [discriminate|].
  destruct (run_statement (load_media to_integer) (tweet_media_csv csv) g5) as [g6 e6] eqn:E6.
  destruct e6; [discriminate|]. intros _. cbn [snd].
  destruct (run_statement_cases _ _ _ _ _ E1) as [[_ C1]|[[=] _]].
  destruct (run_statement_cases _ _ _ _ _ E2) as [[_ C2]|[[=] _]].
  destruct (run_statement_cases _ _ _ _ _ E3) as [[_ C3]|[[=] _]].
  destruct (run_statement_cases _ _ _ _ _ E4) as [[_ C4]|[[=] _]].
  destruct (run_statement_cases _ _ _ _ _ E5) as [[_ C5]|[[=] _]].
  destruct (run_statement_cases _ _ _ _ _ E6) as [[_ C6]|[[=] _]].
  destruct (account_chunk _ _ _ _ C1) as (Acc1 & Q1).
  destruct (tweet_chunk _ _ _ _ C2) as (Tw2 & Td2 & Q2).
  destruct (follower_chunk _ _ _ C3) as (Fo3 & Q3).
  destruct (following_chunk _ _ _ C4) as (Fo4 & Q4).
  destruct (like_chunk _ _ _ C5) as (Li5 & Q5).
  destruct (media_chunk _ _ _ _ C6) as (Me6 & Hm6 & Q6).
  assert (EA : accounts g6 = accounts g1 /\ accounts g5 = accounts g1 /\ accounts g4 = accounts g1 /\
               accounts g3 = accounts g1 /\ accounts g2 = accounts g1).
  { rewrite Q6, Q5, Q4, Q3, Q2. done. }
  destruct EA as (EA6 & EA5 & EA4 & EA3 & EA2).
  assert (ET : tweets g6 = tweets g2 /\ tweets g5 = tweets g2 /\ tweets g4 = tweets g2 /\
               tweets g3 = tweets g2 /\ tweets g1 = tweets g).
  { rewrite Q6, Q5, Q4, Q3, Q1. done. }
  destruct ET as (ET6 & ET5 & ET4 & ET3 & ET1).
  assert (EM : media g5 = media g).
  { rewrite Q5, Q4, Q3, Q2, Q1. done. }
  assert (ETd : tweeted g6 = tweeted g2 /\ tweeted g1 = tweeted g).
  { rewrite Q6, Q5, Q4, Q3, Q1. done. }
  destruct ETd as (ETd6 & ETd1).
  assert (EF : follows g6 = follows g4 /\ follows g2 = follows g).
  { rewrite Q6, Q5, Q2, Q1. done. }
  destruct EF as (EF6 & EF2).
  assert (EL : likes g6 = likes g5 /\ likes g4 = likes g).
  { rewrite Q6, Q4, Q3, Q2, Q1. done. }
  destruct EL as (EL6 & EL4).
  assert (EH : has_media g5 = has_media g).
  { rewrite Q5, Q4, Q3, Q2, Q1. done. }
  split_and!.
  - intros k. rewrite EA6. apply Acc1.
  - intros t. rewrite ET6, Tw2, ET1. done.
  - intros m. rewrite Me6, EM. done.
  - intros a t. rewrite ETd6, Td2, ETd1, EA2 in *. rewrite <- Acc1. done.
  - intros x y. rewrite EF6, Fo4, Fo3, EF2, EA3, EA2. rewrite <- !Acc1. tauto.
  - intros a t. rewrite EL6, Li5, EL4, EA4, ET4. rewrite <- Acc1, <- ET1, <- Tw2. done.
  - intros t m. rewrite Hm6, EH, ET5. rewrite <- ET1, <- Tw2. done.
Qed.

Lemma export_all_ok (pe : pg_env) (dir : string) (tables : list (string * string)) (fs : files) :
  (forall tn, tn ∈ tables -> snd (copy_out pe (export_query tn.1)) = None) ->
  export_all pe dir tables fs =
    (export_lines dir tables, export_calls dir tables, exported pe dir tables fs, None).
Proof.
  revert fs. induction tables as [|[t n] rest IH]; intros fs Hok; [done|].
  cbn [export_all]. unfold export_table_to_csv at 1.
  pose proof (Hok (t, n) ltac:(by left)) as Ht. cbn [fst snd] in Ht.
  destruct (copy_out pe (export_query t)) as [content err] eqn:Hc. cbn [snd] in Ht. subst err.
  cbn [fmap option_fmap option_map].
  rewrite IH by (intros tn Htn; apply Hok; by right).
  unfold exported. cbn [foldl fst snd]. rewrite Hc. done.
Qed.

Lemma export_all_fail (pe : pg_env) (dir : string) (tables : list (string * string)) (fs : files)
    (k : nat) (tn : string * string) (msg : string) :
  tables !! k = Some tn ->
  (forall j tn', j < k -> tables !! j = Some tn' -> snd (copy_out pe (export_query tn'.1)) = None) ->
  snd (copy_out pe (export_query tn.1)) = Some msg ->
  export_all pe dir tables fs =
    (export_lines dir (take (S k) tables), export_calls dir (take (S k) tables),
     exported pe dir (take (S k) tables) fs, Some (ExnPg msg)).
Proof.
  revert fs k. induction tables as [|[t n] rest IH]; intros fs k Hk Hbefore Hfail; [by rewrite lookup_nil in Hk|].
  cbn [export_all]. unfold export_table_to_csv at 1.
  destruct k as [|k].
  - injection Hk as <-. cbn [fst snd] in Hfail.
    destruct (copy_out pe (export_query t)) as [content err] eqn:Hc. cbn [snd] in Hfail. subst err.
    cbn [fmap option_fmap option_map]. unfold exported. cbn. rewrite Hc. done.
  - pose proof (Hbefore 0 (t, n) ltac:(lia) eq_refl) as Ht. cbn [fst snd] in Ht.
    destruct (copy_out pe (export_query t)) as [content err] eqn:Hc. cbn [snd] in Ht. subst err.
    cbn [fmap option_fmap option_map].
    assert (Hb' : forall j tn', j < k -> rest !! j = Some tn' ->
                    snd (copy_out pe (export_query tn'.1)) = None).
    { intros j tn' Hj Hjt. apply (Hbefore (S j) tn'); [lia|exact Hjt]. }
    rewrite (IH _ k Hk Hb' Hfail).
    unfold exported. cbn [take foldl fst snd]. rewrite Hc. done.
Qed.

Lemma append_cancel_l (s a b : string) : s +:+ a = s +:+ b -> a = b.
Proof. induction s as [|c s IH]; cbn; [done|]. intros [= H]. by apply IH. Qed.

Lemma exported_cons (pe : pg_env) (dir : string) (tn : string * string)
    (rest : list (string * string)) (fs : files) :
  exported pe dir (tn :: rest) fs =
    exported pe dir rest (<[path_join dir tn.2 := fst (copy_out pe (export_query tn.1))]> fs).
Proof. reflexivity. Qed.

Lemma exported_notin (pe : pg_env) (dir : string) (tables : list (string * string))
    (fs : files) (p : string) :
  (forall tn, tn ∈ tables -> p <> path_join dir tn.2) ->
  exported pe dir tables fs !! p = fs !! p.
Proof.
  revert fs. induction tables as [|tn rest IH]; intros fs Hp; [done|].
  rewrite exported_cons, IH by (intros tn' Htn'; apply Hp; by right).
  rewrite lookup_insert_ne; [done|]. intros Heq. apply (Hp tn); [by left|done].
Qed.

Lemma exported_in (pe : pg_env) (dir : string) (tables : list (string * string))
    (fs : files) (t n : string) :
  NoDup tables.*2 -> (t, n) ∈ tables ->
  exported pe dir tables fs !! path_join dir n = Some (fst (copy_out pe (export_query t))).
Proof.
  revert fs. induction tables as [|[t0 n0] rest IH]; intros fs Hnd Hin;
    [by apply elem_of_nil in Hin|].
  cbn [fmap list_fmap fst snd] in Hnd. apply NoDup_cons in Hnd as [Hn0 Hnd].
  rewrite exported_cons. cbn [fst snd].
  apply elem_of_cons in Hin as [[= -> ->]|Hin]; [|by apply IH].
  rewrite exported_notin; [by rewrite lookup_insert_eq|].
  intros [t' n'] Htn' Heq. cbn [snd] in Heq. apply Hn0.
  unfold path_join in Heq. apply append_cancel_l, append_cancel_l in Heq. subst n'.
  apply list_elem_of_fmap. by exists (t', n0).
Qed.

(** When the COPY of a table raises, the earlier ones having succeeded,
    [main] raises that error: the files of the earlier tables and of this
    one (what the COPY wrote before failing) are written, the later
    tables are not exported, the cursor and the connection are not
    closed, and Neo4j is never contacted. *)
Theorem main_export_failure (pe : pg_env) (home : string) (to_integer : string -> option Z)
    (neo_csv : csv_files) (fs : files) (g : bgraph) (k : nat) (tn : string * string) (msg : string)
    (Hd : makedirs_fail pe = None) (Hc : connect_fail pe = None)
    (Hk : TABLES_TO_EXPORT !! k = Some tn)
    (Hbefore : forall j tn', j < k -> TABLES_TO_EXPORT !! j = Some tn' ->
                 snd (copy_out pe (export_query tn'.1)) = None)
    (Hfail : snd (copy_out pe (export_query tn.1)) = Some msg) :
  main_py pe home to_integer neo_csv fs g =
    mkMainResult
      ([MConnectingPg; MPgConnected; MExporting] ++
       export_lines (CSV_EXPORT_DIR home) (take (S k) TABLES_TO_EXPORT))
      (CPgConnect :: export_calls (CSV_EXPORT_DIR home) (take (S k) TABLES_TO_EXPORT))
      (Some (ExnPg msg))
      (exported pe (CSV_EXPORT_DIR home) (take (S k) TABLES_TO_EXPORT) fs)
      g.
Proof.
  unfold main_py. rewrite Hd, Hc.
  rewrite (export_all_fail pe _ TABLES_TO_EXPORT fs k tn msg Hk Hbefore Hfail). done.
Qed.

Lemma main_export_failure_witness :
  let pe := mkPgEnv None None
    (fun q => if bool_decide (q = export_query "followers") then ([], Some "permission denied")
              else ([{[ "account_id" := "1" ]}], None)) in
  makedirs_fail pe = None /\ connect_fail pe = None /\
  TABLES_TO_EXPORT !! 2 = Some ("followers", "followers.csv") /\
  (forall j tn', j < 2 -> TABLES_TO_EXPORT !! j = Some tn' ->
     snd (copy_out pe (export_query tn'.1)) = None) /\
  snd (copy_out pe (export_query "followers")) = Some "permission denied" /\
  main_py pe "/home/u" (fun _ => None) (mkCsvFiles [] [] [] [] [] []) ∅ (mkBGraph ∅ ∅ ∅ ∅ ∅ ∅ ∅) =
    mkMainResult
      ([MConnectingPg; MPgConnected; MExporting] ++
       export_lines (CSV_EXPORT_DIR "/home/u") (take 3 TABLES_TO_EXPORT))
      (CPgConnect :: export_calls (CSV_EXPORT_DIR "/home/u") (take 3 TABLES_TO_EXPORT))
      (Some (ExnPg "permission denied"))
      (exported pe (CSV_EXPORT_DIR "/home/u") (take 3 TABLES_TO_EXPORT) ∅)
      (mkBGraph ∅ ∅ ∅ ∅ ∅ ∅ ∅).
Proof.
  intros pe.
  assert (Hb : forall j tn', j < 2 -> TABLES_TO_EXPORT !! j = Some tn' ->
                 snd (copy_out pe (export_query tn'.1)) = None).
  { intros [|[|j]] tn' Hj Htn'; [| |lia]; injection Htn' as <-; vm_compute; reflexivity. }
  assert (Hf : snd (copy_out pe (export_query "followers")) = Some "permission denied")
    by (vm_compute; reflexivity).
  split; [reflexivity|]. split; [reflexivity|]. split; [reflexivity|].
  split; [exact Hb|]. split; [exact Hf|].
  exact (main_export_failure pe "/home/u" (fun _ => None) (mkCsvFiles [] [] [] [] [] []) ∅
           (mkBGraph ∅ ∅ ∅ ∅ ∅ ∅ ∅) 2 ("followers", "followers.csv") "permission denied"
           eq_refl eq_refl eq_refl Hb Hf).
Defined.

(** When every COPY succeeds, [main] has written each table's CSV to its
    path under [CSV_EXPORT_DIR] (and no other file), closed the cursor and
    the connection, and run the bulk load, whose graph it leaves.  It
    prints "Done." and closes the driver only when the load succeeds; an
    exception of the load leaves [main]. *)
Theorem main_exports_then_loads (pe : pg_env) (home : string) (to_integer : string -> option Z)
    (neo_csv : csv_files) (fs : files) (g : bgraph)
    (Hd : makedirs_fail pe = None) (Hc : connect_fail pe = None)
    (Hok : forall tn, tn ∈ TABLES_TO_EXPORT -> snd (copy_out pe (export_query tn.1)) = None) :
  let r := main_py pe home to_integer neo_csv fs g in
  let dir := CSV_EXPORT_DIR home in
  (forall t n, (t, n) ∈ TABLES_TO_EXPORT ->
     m_files r !! path_join dir n = Some (fst (copy_out pe (export_query t)))) /\
  (forall p, (forall tn, tn ∈ TABLES_TO_EXPORT -> p <> path_join dir tn.2) ->
     m_files r !! p = fs !! p) /\
  m_graph r = snd (load_data_into_neo4j to_integer neo_csv g) /\
  (fst (load_data_into_neo4j to_integer neo_csv g) = Ret tt ->
     m_exn r = None /\ last (m_out r) = Some MDone /\
     m_calls r = CPgConnect :: export_calls dir TABLES_TO_EXPORT ++
                   [CCursorClose; CConnClose; CDriverClose]) /\
  (forall e, fst (load_data_into_neo4j to_integer neo_csv g) = Raise e ->
     m_exn r = Some (ExnNeo e) /\ (MDone ∉ m_out r) /\
     m_calls r = CPgConnect :: export_calls dir TABLES_TO_EXPORT ++ [CCursorClose; CConnClose]).
Proof.
  intros r dir.
  assert (Hr : exists out, r =
    match load_data_into_neo4j to_integer neo_csv g with
    | (Raise e, g') => mkMainResult out (CPgConnect :: export_calls dir TABLES_TO_EXPORT ++
                         [CCursorClose; CConnClose]) (Some (ExnNeo e))
                         (exported pe dir TABLES_TO_EXPORT fs) g'
    | (Ret _, g') => mkMainResult (out ++ [MLoadCompleted; MDone])
                       ((CPgConnect :: export_calls dir TABLES_TO_EXPORT ++
                         [CCursorClose; CConnClose]) ++ [CDriverClose])
                       None (exported pe dir TABLES_TO_EXPORT fs) g'
    end /\ MDone ∉ out).
  { unfold r, main_py. rewrite Hd, Hc, (export_all_ok pe _ TABLES_TO_EXPORT fs Hok).
    eexists. split; [reflexivity|].
    cbn. intros H. repeat (apply elem_of_cons in H as [H|H]; [discriminate|]).
    by apply elem_of_nil in H. }
  destruct Hr as (out & Hr & Hout). rewrite Hr.
  assert (Hnd : NoDup TABLES_TO_EXPORT.*2) by (apply (bool_decide_unpack _); vm_compute; exact I).
  destruct (load_data_into_neo4j to_integer neo_csv g) as [[u|e] g'];
    cbn [m_files m_graph m_exn m_out m_calls fst snd]; split_and!.
  - intros t n Hin. by apply exported_in.
  - intros p Hp. by apply exported_notin.
  - done.
  - intros _. split; [done|]. split.
    { change [MLoadCompleted; MDone] with ([MLoadCompleted] ++ [MDone]).
      by rewrite app_assoc, last_snoc. }
    by rewrite <- app_comm_cons, <- app_assoc.
  - intros e [=].
  - intros t n Hin. by apply exported_in.
  - intros p Hp. by apply exported_notin.
  - done.
  - intros [=].
  - intros e' [= <-]. done.
Qed.

Lemma main_exports_then_loads_witness :
  let pe := mkPgEnv None None (fun q => ([{[ "account_id" := "1" ]}], None)) in
  let r := main_py pe "/home/u" (fun _ => None) (mkCsvFiles [] [] [] [] [] []) ∅
             (mkBGraph ∅ ∅ ∅ ∅ ∅ ∅ ∅) in
  makedirs_fail pe = None /\ connect_fail pe = None /\
  (forall tn, tn ∈ TABLES_TO_EXPORT -> snd (copy_out pe (export_query tn.1)) = None) /\
  m_graph r = snd (load_data_into_neo4j (fun _ => None) (mkCsvFiles [] [] [] [] [] [])
                     (mkBGraph ∅ ∅ ∅ ∅ ∅ ∅ ∅)).
Proof.
  intros pe r.
  assert (Hok : forall tn, tn ∈ TABLES_TO_EXPORT -> snd (copy_out pe (export_query tn.1)) = None)
    by (intros tn _; reflexivity).
  split; [reflexivity|]. split; [reflexivity|]. split; [exact Hok|].
  destruct (main_exports_then_loads pe "/home/u" (fun _ => None) (mkCsvFiles [] [] [] [] [] []) ∅
              (mkBGraph ∅ ∅ ∅ ∅ ∅ ∅ ∅) eq_refl eq_refl Hok) as (_ & _ & Hg & _).
  exact Hg.
Defined.

Lemma load_data_success_witness :
  let ti := fun s : string => if bool_decide (s = "7") then Some 7%Z else None in
  let g := mkBGraph {[ "A" := ∅ ]} ∅ ∅ ∅ ∅ ∅ ∅ in
  let csv := mkCsvFiles [{[ "account_id" := "B" ]}] [{[ "tweet_id" := "T"; "account_id" := "B" ]}]
               [{[ "account_id" := "A"; "follower_account_id" := "B" ]}] [] []
               [{[ "media_id" := "7"; "tweet_id" := "T" ]}] in
  fst (load_data_into_neo4j ti csv g) = Ret tt /\
  (forall a t, (a, t) ∈ tweeted (snd (load_data_into_neo4j ti csv g)) <->
     (a, t) ∈ tweeted g \/
     ((is_Some (accounts g !! a) \/
       exists row, row ∈ account_csv csv /\ row !! "account_id" = Some a) /\
      exists row, row ∈ enriched_tweets_csv csv /\
        row !! "tweet_id" = Some t /\ row !! "account_id" = Some a)).
Proof.
  intros ti g csv.
  assert (Hok : fst (load_data_into_neo4j ti csv g) = Ret tt) by (vm_compute; reflexivity).
  split; [exact Hok|].
  destruct (load_data_success ti csv g Hok) as (_ & _ & _ & Htw & _).
  exact Htw.
Defined.
